(** * Vocabulary and sequence encoding pipeline (batcher.py)

    A shallow embedding of [batcher.py]: the discard predicate, the
    [CharacterTable] (one-hot [encode] and [decode]), the vocabulary builder
    ([build_vocabulary] and [Batcher.write]), the table reconstruction
    ([Batcher.get_chars_and_ctable]) and the [LazyDataLoader].

    Python values are carried as follows.
    - a [str] is the list of its Unicode code points ([list N]); a character
      is a code point, and [sorted] on characters orders by code point;
    - a Python [int] is a [Z]; lengths and loop counters over [range] are [nat];
    - a [dict] (and a [Counter]) is an insertion-ordered association list with
      unique keys (module [PyDict]);
    - a raised exception is the left summand of [result]. *)

From Stdlib Require Import Ascii String.
From stdpp Require Import base list sorting.

Local Open Scope Z_scope.
Local Open Scope list_scope.

(** ** Characters and strings *)

Abbreviation char := N (only parsing).
Abbreviation str := (list N) (only parsing).

(** [ord c] for an ASCII character; [pystr] turns an ASCII literal into the
    Python string with the same characters. *)
Definition ord (a : ascii) : N := N_of_ascii a.
Definition pystr (s : string) : str := ord <$> list_ascii_of_string s.

(** ** Exceptions *)

Inductive exn : Type :=
  | IndexError
  | KeyError
  | ValueError
  | TypeError
  | AssertionError
  | StopIteration.

Global Instance exn_eq_dec : EqDecision exn.
Proof. solve_decision. Defined.

Definition result (A : Type) : Type := exn + A.

Abbreviation Ok a := (@inr exn _ a).
Abbreviation Raise e := (@inl exn _ e).

Definition rbind {A B} (m : result A) (k : A → result B) : result B :=
  match m with
  | inl e => inl e
  | inr a => k a
  end.

Notation "'do' x <- m ; k" := (rbind m (fun x => k))
  (at level 10, x name, m at level 100, k at level 200).

(** [try: body except e: handler]: only the exception [e] is handled. *)
Definition try_except {A} (body : result A) (e : exn) (handler : result A)
  : result A :=
  match body with
  | inl e' => if decide (e' = e) then handler else inl e'
  | inr a => inr a
  end.

(** A [for] loop whose body may raise: the first exception ends the loop. *)
Fixpoint for_each {A S} (body : S → A → result S) (s : S) (l : list A)
  : result S :=
  match l with
  | [] => Ok s
  | a :: l' => do s' <- body s a; for_each body s' l'
  end.

(** [range(n)]. *)
Definition range (n : nat) : list nat := seq 0 n.

(** [result]-valued map: the elements are evaluated left to right and the
    first exception is the one raised (a generator expression under
    [''.join]). *)
Fixpoint map_result {A B} (f : A → result B) (l : list A) : result (list B) :=
  match l with
  | [] => Ok []
  | a :: l' => do b <- f a; do bs <- map_result f l'; Ok (b :: bs)
  end.

(** [enumerate(l)]: pairs (index, element). *)
Definition enumerate {A} (l : list A) : list (Z * A) :=
  imap (λ i a, (Z.of_nat i, a)) l.

(** [set(l)] followed by an order-insensitive consumer: the distinct
    elements of [l]. *)
Definition set_of `{EqDecision A} (l : list A) : list A := remove_dups l.

(** ** sorted

    [sorted] is stable.  [before a b] says that [a] must come strictly before
    [b]; elements neither of which comes strictly before the other keep their
    input order.  [sorted(l)] on characters is [sorted N.ltb l];
    [sorted(l, key=k, reverse=True)] is [sorted (λ a b, k b <? k a) l]. *)

Fixpoint sorted_insert {A} (before : A → A → bool) (a : A) (l : list A)
  : list A :=
  match l with
  | [] => [a]
  | b :: l' =>
      if before b a then b :: sorted_insert before a l' else a :: b :: l'
  end.

Fixpoint sorted {A} (before : A → A → bool) (l : list A) : list A :=
  match l with
  | [] => []
  | a :: l' => sorted_insert before a (sorted before l')
  end.

(** ** dict *)

Module PyDict.
Section dict.
Context {K V : Type} `{EqDecision K}.

(** [d.get(k)] *)
Fixpoint get (d : list (K * V)) (k : K) : option V :=
  match d with
  | [] => None
  | (k', v) :: d' => if decide (k = k') then Some v else get d' k
  end.

(** [k in d] *)
Definition contains (d : list (K * V)) (k : K) : bool :=
  match get d k with Some _ => true | None => false end.

(** [d[k]] *)
Definition getitem (d : list (K * V)) (k : K) : result V :=
  match get d k with Some v => Ok v | None => Raise KeyError end.

(** [d[k] = v]: an existing key keeps its position, a new key goes
    last. *)
Fixpoint setitem (d : list (K * V)) (k : K) (v : V) : list (K * V) :=
  match d with
  | [] => [(k, v)]
  | (k', v') :: d' =>
      if decide (k = k') then (k, v) :: d' else (k', v') :: setitem d' k v
  end.

(** [dict(pairs)] *)
Definition of_pairs (pairs : list (K * V)) : list (K * V) :=
  foldl (λ d p, setitem d p.1 p.2) [] pairs.

Definition keys (d : list (K * V)) : list K := d.*1.
Definition values (d : list (K * V)) : list V := d.*2.
Definition items (d : list (K * V)) : list (K * V) := d.
Definition len (d : list (K * V)) : nat := length d.
End dict.
End PyDict.

Abbreviation dict K V := (list (K * V)) (only parsing).

(** ** collections.Counter *)

Module Counter.
(** [self[elem]] with [__missing__] returning 0. *)
Definition count (self : dict char Z) (elem : char) : Z :=
  default 0 (PyDict.get self elem).

(** [Counter(iterable)]: [mapping[elem] = mapping.get(elem, 0) + 1] for
    each element in turn. *)
Definition of_iterable (iterable : list char) : dict char Z :=
  foldl (λ m elem, PyDict.setitem m elem (count m elem + 1)) [] iterable.

Definition keep_positive (self : dict char Z) : dict char Z :=
  filter (λ p, 0 < p.2) self.

(** [self += other]: [self[elem] += count] for each item of [other], then
    the entries that are not positive are deleted. *)
Definition iadd (self other : dict char Z) : dict char Z :=
  keep_positive
    (foldl (λ m p, PyDict.setitem m p.1 (count m p.1 + p.2)) self
       (PyDict.items other)).

(** [self.most_common(n)] is [heapq.nlargest(n, self.items(), key=count)],
    that is [sorted(self.items(), key=count, reverse=True)[:n]]. *)
Definition most_common (self : dict char Z) (n : nat) : list (char * Z) :=
  take n (sorted (λ p q, q.2 <? p.2) (PyDict.items self)).
End Counter.

(** ** numpy arrays

    An array entry is 0.0 or 1.0 in every array [encode] builds; entries are
    carried as integers, on which numpy's comparison of these two values
    agrees. *)

Module np.
Inductive ndarray : Type :=
  | Arr1 (v : list Z)
  | Arr2 (rows : list (list Z)).

(** [np.zeros((rows, cols))] *)
Definition zeros (rows cols : nat) : list (list Z) :=
  replicate rows (replicate cols 0).

(** An index [j] into an axis of length [n]: negative indices count from
    the end, anything else out of range raises IndexError. *)
Definition index (n : nat) (j : Z) : result nat :=
  if decide (0 ≤ j < Z.of_nat n) then Ok (Z.to_nat j)
  else if decide (- Z.of_nat n ≤ j < 0) then Ok (Z.to_nat (Z.of_nat n + j))
  else Raise IndexError.

(** [x[i, j] = v] *)
Definition setitem2 (x : list (list Z)) (i j : Z) (v : Z)
  : result (list (list Z)) :=
  do i' <- index (length x) i;
  match x !! i' with
  | Some row =>
      do j' <- index (length row) j; Ok (<[i' := <[j' := v]> row]> x)
  | None => Raise IndexError
  end.

(** [argmax] of one row: the first position of the largest entry. *)
Fixpoint argmax_from (best_i : nat) (best : Z) (i : nat) (l : list Z)
  : nat :=
  match l with
  | [] => best_i
  | v :: l' =>
      if best <? v then argmax_from i v (S i) l'
      else argmax_from best_i best (S i) l'
  end.

Definition argmax (row : list Z) : result Z :=
  match row with
  | [] => Raise ValueError
  | v :: l => Ok (Z.of_nat (argmax_from 0 v 1 l))
  end.

(** [x.argmax(axis=-1)] of a two-dimensional array. *)
Definition argmax_last (x : list (list Z)) : result (list Z) :=
  map_result argmax x.
End np.

(** ** class CharacterTable *)

Module CharacterTable.
Record t : Type := mk {
  chars : list char;
  char_indices : dict char Z;
  indices_char : dict Z char
}.

(** [__init__]:
    [self.chars = sorted(set(chars))],
    [self.char_indices = dict((c, i) for i, c in enumerate(self.chars))],
    [self.indices_char = dict((i, c) for i, c in enumerate(self.chars))]. *)
Definition init (chars : str) : t :=
  let chars := sorted N.ltb (set_of chars) in
  {| chars := chars;
     char_indices := PyDict.of_pairs ((λ p, (p.2, p.1)) <$> enumerate chars);
     indices_char := PyDict.of_pairs ((λ p, (p.1, p.2)) <$> enumerate chars)
  |}.

(** The body of the loop of [encode] at row [i]: the [try] block reads
    [C[i]] and sets the entry of that character, or of ['？'] when the
    character is not a key of [char_indices]; [except IndexError] sets the
    entry of [' ']. *)
Definition encode_row (self : t) (C : str) (x : list (list Z)) (i : nat)
  : result (list (list Z)) :=
  try_except
    (do c <- match C !! i with Some c => Ok c | None => Raise IndexError end;
     if negb (PyDict.contains (char_indices self) c) then
       do j <- PyDict.getitem (char_indices self) 65311%N;
       np.setitem2 x (Z.of_nat i) j 1
     else
       do j <- PyDict.getitem (char_indices self) c;
       np.setitem2 x (Z.of_nat i) j 1)
    IndexError
    (do j <- PyDict.getitem (char_indices self) (ord " ");
     np.setitem2 x (Z.of_nat i) j 1).

Definition encode (self : t) (C : str) (num_rows : nat)
  : result (list (list Z)) :=
  let x := np.zeros num_rows (length (chars self)) in
  for_each (encode_row self C) x (range num_rows).

(** [decode]: with [calc_argmax] the rows of a two-dimensional array are
    first collapsed by [argmax]; then every index is looked up in
    [indices_char] and the characters are joined.  Iterating the scalar
    that [argmax] returns for a one-dimensional array, and using a row as a
    dictionary key, are type errors. *)
Definition decode (self : t) (x : np.ndarray) (calc_argmax : bool)
  : result str :=
  do x <- (if calc_argmax then
             match x with
             | np.Arr2 rows => np.argmax_last rows
             | np.Arr1 _ => Raise TypeError
             end
           else
             match x with
             | np.Arr1 v => Ok v
             | np.Arr2 [] => Ok []
             | np.Arr2 (_ :: _) => Raise TypeError
             end);
  map_result (PyDict.getitem (indices_char self)) x.
End CharacterTable.

Global Arguments CharacterTable.init : simpl never.

(** ** class Batcher *)

Module Batcher.
Definition SEP : char := ord "009".
Definition ENCODING_MAX_PASSWORD_LENGTH : nat := 12.
Definition ENCODING_MAX_SIZE_VOCAB : nat := 80.
(** ['？'] is U+FF1F, FULLWIDTH QUESTION MARK. *)
Definition OOV_CHAR : char := 65311%N.
Definition PAD_CHAR : char := ord " ".

(** The two pickled files.  [write] names the dictionary from index to
    character [token_indices] and the one from character to index
    [indices_token]; each is stored in the file of the same name. *)
Record artifacts : Type := mk_artifacts {
  token_indices : dict Z char;
  indices_token : dict char Z
}.

(** [write]:
    [token_indices = dict((c, i) for (c, i) in enumerate(l))],
    [indices_token = dict((i, c) for (c, i) in enumerate(l))],
    [assert len(token_indices) == len(indices_token)], then both
    are dumped. *)
Definition write (vocabulary_sorted_list : list char) : result artifacts :=
  let token_indices :=
    PyDict.of_pairs ((λ p, (p.1, p.2)) <$> enumerate vocabulary_sorted_list) in
  let indices_token :=
    PyDict.of_pairs ((λ p, (p.2, p.1)) <$> enumerate vocabulary_sorted_list) in
  if decide (PyDict.len token_indices = PyDict.len indices_token) then
    Ok {| token_indices := token_indices; indices_token := indices_token |}
  else Raise AssertionError.

Definition get_token_indices (files : artifacts) : dict Z char :=
  token_indices files.

Definition get_indices_token (files : artifacts) : dict char Z :=
  indices_token files.

Definition get_vocab_size (files : artifacts) : nat :=
  PyDict.len (get_token_indices files).

(** [chars = ''.join(list(self.get_token_indices().values()))],
    [ctable = CharacterTable(chars)]. *)
Definition get_chars_and_ctable (files : artifacts)
  : str * CharacterTable.t :=
  let chars := PyDict.values (get_token_indices files) in
  (chars, CharacterTable.init chars).
End Batcher.

(** ** discard_password *)

(** [len(password) > Batcher.ENCODING_MAX_PASSWORD_LENGTH or ' ' in password] *)
Definition discard_password (password : str) : bool :=
  bool_decide (Batcher.ENCODING_MAX_PASSWORD_LENGTH < length password)%nat
  || bool_decide (ord " " ∈ password).

(** ** str.strip and str.split *)

(** The characters [str.strip()] removes: those for which [str.isspace] holds. *)
Definition isspace (c : char) : bool :=
  ((9 <=? c) && (c <=? 13) || (28 <=? c) && (c <=? 32)
   || (c =? 133) || (c =? 160) || (c =? 5760)
   || (8192 <=? c) && (c <=? 8202) || (c =? 8232) || (c =? 8233)
   || (c =? 8239) || (c =? 8287) || (c =? 12288))%N.

Fixpoint lstrip (s : str) : str :=
  match s with
  | [] => []
  | c :: s' => if isspace c then lstrip s' else s
  end.

Definition strip (s : str) : str := reverse (lstrip (reverse (lstrip s))).

(** [s.split(sep)] for a one-character separator. *)
Fixpoint split (sep : char) (s : str) : list str :=
  match s with
  | [] => [[]]
  | c :: s' =>
      if decide (c = sep) then [] :: split sep s'
      else match split sep s' with
           | field :: fields => (c :: field) :: fields
           | [] => [[c]]
           end
  end.

(** ** build_vocabulary *)

(** The body of the loop over [r.readlines()]. *)
Definition count_line (vocabulary : dict char Z) (s : str)
  : result (dict char Z) :=
  match split Batcher.SEP (strip s) with
  | [_; x; y] =>
      if discard_password y || discard_password x then Ok vocabulary
      else Ok (Counter.iadd vocabulary (Counter.of_iterable (y ++ x)))
  | _ => Raise ValueError
  end.

(** [build_vocabulary] up to the list it hands to [Batcher.write]; [lines]
    is what [r.readlines()] returns. *)
Definition build_vocabulary_list (lines : list str) : result (list char) :=
  do vocabulary <- for_each count_line [] lines;
  let vocabulary_sorted_list :=
    sorted N.ltb
      (PyDict.keys
         (PyDict.of_pairs
            (Counter.most_common vocabulary Batcher.ENCODING_MAX_SIZE_VOCAB)))
  in
  let vocabulary_sorted_list := vocabulary_sorted_list ++ [Batcher.OOV_CHAR] in
  let vocabulary_sorted_list := vocabulary_sorted_list ++ [Batcher.PAD_CHAR] in
  Ok vocabulary_sorted_list.

Definition build_vocabulary (lines : list str) : result Batcher.artifacts :=
  do vocabulary_sorted_list <- build_vocabulary_list lines;
  Batcher.write vocabulary_sorted_list.

(** ** Iterators over the corpus

    The iterator that [stream_from_file] returns yields finitely many pairs
    and then raises: StopIteration at the end of the file, or the error of
    the line it could not read.  A generator that has raised is finished and
    raises StopIteration from then on. *)

Module Stream.
Record t : Type := mk {
  pending : list (str * str);
  ending : exn
}.

Definition finished : t := {| pending := []; ending := StopIteration |}.

(** [next(stream)] *)
Definition next (s : t) : result (str * str) * t :=
  match pending s with
  | item :: rest => (Ok item, {| pending := rest; ending := ending s |})
  | [] => (Raise (ending s), finished)
  end.

(** [for item in stream: acc = body(acc, item)]: StopIteration ends the
    loop, any other exception leaves it. *)
Definition for_in {S} (body : S → str * str → S) (acc : S) (s : t)
  : result S * t :=
  let acc := foldl body acc (pending s) in
  (if decide (ending s = StopIteration) then Ok acc else Raise (ending s),
   finished).

(** Modelled from the spec: [utils.stream_from_file], the Corpus Reader,
    is not part of the sources.  Per the spec every line holds three
    separator-delimited fields, an identifier and the two sequence fields,
    the reader yields the pair of sequence fields of each line, and a line
    with a wrong field count raises a parse error that aborts the pass. *)
Fixpoint of_lines (sep : char) (lines : list str) : t :=
  match lines with
  | [] => finished
  | line :: lines' =>
      match split sep line with
      | [_; x; y] =>
          let s := of_lines sep lines' in
          {| pending := (x, y) :: pending s; ending := ending s |}
      | _ => {| pending := []; ending := ValueError |}
      end
  end.
End Stream.

(** ** class LazyDataLoader *)

Module LazyDataLoader.
Record t : Type := mk {
  training_filename : str;
  stream : Stream.t
}.

Section loader.
(** [utils.stream_from_file(filename, sep)]: the iterator of a fresh
    pass over the file of that name. *)
Variable stream_from_file : str → char → Stream.t.

Definition init_stream (self : t) : Stream.t :=
  stream_from_file (training_filename self) Batcher.SEP.

Definition init (training_filename : str) : t :=
  let self := {| training_filename := training_filename;
                 stream := Stream.finished |} in
  {| training_filename := training_filename;
     stream := init_stream self |}.

(** [next]: whatever [next(self.stream)] raises, the stream is
    re-initialised and [self.next()] is called again.  [fuel] bounds the
    depth of these nested calls; [None] means the call has not returned
    within that depth. *)
Fixpoint next (fuel : nat) (self : t) : option ((str * str) * t) :=
  match fuel with
  | O => None
  | S fuel' =>
      match Stream.next (stream self) with
      | (inr item, s) =>
          Some (item, {| training_filename := training_filename self;
                         stream := s |})
      | (inl _, _) =>
          next fuel' {| training_filename := training_filename self;
                        stream := init_stream self |}
      end
  end.

(** [n] calls of [next] in a row, as in the loop of [Batcher.build],
    with the pairs they return. *)
Fixpoint next_n (fuel n : nat) (self : t)
  : option (list (str * str) * t) :=
  match n with
  | O => Some ([], self)
  | S n' =>
      match next fuel self with
      | None => None
      | Some (item, self') =>
          match next_n fuel n' self' with
          | None => None
          | Some (items, self'') => Some (item :: items, self'')
          end
      end
  end.

(** [statistics] returns [(max_len_value_x, max_len_value_y, num_lines)]. *)
Definition statistics (self : t) : result (nat * nat * nat) * t :=
  let max_len_value_x := 0%nat in
  let max_len_value_y := 0%nat in
  let num_lines := 0%nat in
  let stream := init_stream self in
  let '(r, stream) :=
    Stream.for_in
      (λ '(max_len_value_x, max_len_value_y, num_lines) '(x, y),
         (max_len_value_x `max` length x,
          max_len_value_y `max` length y,
          num_lines + 1)%nat)
      (max_len_value_x, max_len_value_y, num_lines) stream in
  (r, {| training_filename := training_filename self; stream := stream |}).
End loader.
End LazyDataLoader.

(** ** Notions the properties are stated with *)

(** The one-hot row of width [n] with its 1 at position [j]. *)
Definition one_hot (n j : nat) : list Z := <[j := 1]> (replicate n 0).

(** The number of entries of a row that are 1. *)
Definition count_ones (row : list Z) : nat := length (filter (λ v, v = 1) row).

(** The index the table assigns to a character, [char_indices[c]]. *)
Definition index_of (self : CharacterTable.t) (c : char) : nat :=
  Z.to_nat (default 0 (PyDict.get (CharacterTable.char_indices self) c)).

(** The character a row of [encode] stands for: [C[i]] when it is a
    character of the table, ['？'] for another character, [' '] past the end
    of [C]. *)
Definition row_char (self : CharacterTable.t) (C : str) (i : nat) : char :=
  match C !! i with
  | Some c =>
      if bool_decide (c ∈ CharacterTable.chars self) then c
      else Batcher.OOV_CHAR
  | None => Batcher.PAD_CHAR
  end.

(** The rows of [encode(C, num_rows)]: row [i] is one-hot at the index of
    its character. *)
Definition encode_rows (self : CharacterTable.t) (C : str) (num_rows : nat)
  : list (list Z) :=
  (λ i, one_hot (length (CharacterTable.chars self))
          (index_of self (row_char self C i))) <$> seq 0 num_rows.

(** Trimming the trailing pad characters, [s.rstrip(' ')]. *)
Fixpoint lstrip_pad (s : str) : str :=
  match s with
  | [] => []
  | c :: s' => if decide (c = Batcher.PAD_CHAR) then lstrip_pad s' else s
  end.

Definition rstrip_pad (s : str) : str := reverse (lstrip_pad (reverse s)).

(** The largest of a list of lengths, 0 for none. *)
Definition max_len (l : list str) : nat :=
  foldr Nat.max 0%nat (length <$> l).

(** A counter is well formed for a property [P] of characters when its keys
    are distinct and all satisfy [P]. *)
Definition counter_wf (P : char → Prop) (m : dict char Z) : Prop :=
  NoDup (PyDict.keys m) ∧ Forall P (PyDict.keys m).

(** The characters [build_vocabulary] selects from a counter: the keys of
    its [ENCODING_MAX_SIZE_VOCAB] most common items. *)
Definition selected_chars (vocabulary : dict char Z) : list char :=
  (Counter.most_common vocabulary Batcher.ENCODING_MAX_SIZE_VOCAB).*1.

(** A corpus of one line whose first password is the character ['？']. *)
Definition oov_corpus : list str :=
  [ pystr "id" ++ [Batcher.SEP] ++ [Batcher.OOV_CHAR] ++ [Batcher.SEP]
    ++ pystr "a" ].

(** The loader reads the file [filename], a pass over which yields [pairs],
    and the next pair of its stream is the one at position [p] of the pass;
    at [p = length pairs] the stream is exhausted. *)
Definition at_position (filename : str) (pairs : list (str * str)) (p : nat)
    (self : LazyDataLoader.t) : Prop :=
  LazyDataLoader.training_filename self = filename
  ∧ Stream.pending (LazyDataLoader.stream self) = drop p pairs
  ∧ (p ≤ length pairs)%nat.

(** The number of occurrences of a character in a string. *)
Definition occurrences (c : char) (s : str) : Z :=
  Z.of_nat (length (filter (λ c', c' = c) s)).

(** The characters [build_vocabulary] counts: those of [y + x] for every
    line none of whose two passwords is discarded, in the order read. *)
Definition counted_chars (lines : list str) : str :=
  lines ≫= λ s,
    match split Batcher.SEP (strip s) with
    | [_; x; y] =>
        if discard_password y || discard_password x then [] else y ++ x
    | _ => []
    end.

(** The toy corpus of three lines. *)
Definition toy_corpus : list str :=
  [ pystr "id" ++ [Batcher.SEP] ++ pystr "abc" ++ [Batcher.SEP] ++ pystr "xyz";
    pystr "id" ++ [Batcher.SEP] ++ pystr "ab" ++ [Batcher.SEP] ++ pystr "xy";
    pystr "id" ++ [Batcher.SEP] ++ pystr "a" ++ [Batcher.SEP] ++ pystr "x" ].

(** The table of the examples: the characters [a], [b], [c] and the two
    sentinels. *)
Definition abc_chars : str :=
  pystr "abc" ++ [Batcher.OOV_CHAR; Batcher.PAD_CHAR].

(** The Corpus Reader over a file system whose every file is the toy
    corpus. *)
Definition toy_reader : str → char → Stream.t :=
  λ _ sep, Stream.of_lines sep toy_corpus.

(** ** class Batcher: instances, [build]

    What an instance of [Batcher] holds, and the methods that use it.  The
    two vocabulary files are on disk ([Some files]) or not ([None]). *)

Module BatcherInstance.
(** The exceptions of these methods: the two messages [Batcher] raises
    itself, the AttributeError of an instance made with [load=False], which
    has neither [chars] nor [c_table], and the exceptions of the character
    table. *)
Inductive error : Type :=
  | RunEncodingFirst
  | RunVectorizationFirst
  | AttributeError
  | Raised (e : exn).

Record t : Type := mk {
  loaded : option (str * CharacterTable.t)
}.

(** [__init__(load)]: with [load] the characters and the table are read
    from the vocabulary files; FileNotFoundError becomes the exception that
    asks to run the encoding first. *)
Definition init (disk : option Batcher.artifacts) (load : bool) : error + t :=
  if load then
    match disk with
    | Some files => inr {| loaded := Some (Batcher.get_chars_and_ctable files) |}
    | None => inl RunEncodingFirst
    end
  else inr {| loaded := None |}.

Definition lift {A} (r : result A) : error + A :=
  match r with
  | inl e => inl (Raised e)
  | inr a => inr a
  end.

(** [chars_len]: [len(self.chars)]. *)
Definition chars_len (self : t) : error + nat :=
  match loaded self with
  | Some (chars, _) => inr (length chars)
  | None => inl AttributeError
  end.

(** [decode(char, calc_argmax)] *)
Definition decode (self : t) (char : np.ndarray) (calc_argmax : bool)
  : error + str :=
  match loaded self with
  | Some (_, c_table) => lift (CharacterTable.decode c_table char calc_argmax)
  | None => inl AttributeError
  end.

(** [encode(elt, num_rows)]; [num_rows] defaults to
    [ENCODING_MAX_PASSWORD_LENGTH]. *)
Definition encode (self : t) (elt : str) (num_rows : option nat)
  : error + list (list Z) :=
  match loaded self with
  | Some (_, c_table) =>
      lift (CharacterTable.encode c_table elt
              (default Batcher.ENCODING_MAX_PASSWORD_LENGTH num_rows))
  | None => inl AttributeError
  end.

Section build.
(** [utils.stream_from_file], as for [LazyDataLoader]. *)
Variable stream_from_file : str → char → Stream.t.

(** The loop of [build]: [count] calls of [data_loader.next()], the fields
    of each pair appended to [inputs] and [targets]. *)
Fixpoint build_loop (fuel count : nat) (data_loader : LazyDataLoader.t)
    (inputs targets : list str)
  : option (LazyDataLoader.t * list str * list str) :=
  match count with
  | O => Some (data_loader, inputs, targets)
  | S count' =>
      match LazyDataLoader.next stream_from_file fuel data_loader with
      | None => None
      | Some ((x_, y_), data_loader') =>
          build_loop fuel count' data_loader' (inputs ++ [x_])
            (targets ++ [y_])
      end
  end.

(** [build(training_filename)]: the vocabulary is built from the lines of
    the file and written; then a loader counts the records of a pass and
    [next] is called that many times.  The result is the vocabulary files
    written, if any, and the [inputs] and [targets] handed to
    [np.savez_compressed], or the exception raised.  [None] means that a
    call of [next] has not returned within [fuel] nested calls. *)
Definition build (fuel : nat) (lines : list str) (training_filename : str)
  : option (option Batcher.artifacts * result (list str * list str)) :=
  match build_vocabulary lines with
  | inl e => Some (None, Raise e)
  | inr files =>
      let data_loader :=
        LazyDataLoader.init stream_from_file training_filename in
      let '(r, data_loader) :=
        LazyDataLoader.statistics stream_from_file data_loader in
      match r with
      | inl e => Some (Some files, Raise e)
      | inr (_, _, training_records_count) =>
          match build_loop fuel training_records_count data_loader [] [] with
          | None => None
          | Some (_, inputs, targets) => Some (Some files, Ok (inputs, targets))
          end
      end
  end.
End build.
End BatcherInstance.


(** The character a row of [encode] decodes to when the table holds both
    sentinels: the character itself when the table has it, ['？'] if not. *)
Definition known_or_oov (self : CharacterTable.t) (c : char) : char :=
  if bool_decide (c ∈ CharacterTable.chars self) then c else Batcher.OOV_CHAR.

(** A line [build_vocabulary] can unpack: stripped, it has exactly two
    separators. *)
Definition three_fields (s : str) : Prop :=
  occurrences Batcher.SEP (strip s) = 2.

(** A password of the corpus that [build_vocabulary] counts: a field [x] or
    [y] of a line with three fields none of whose two passwords is
    discarded. *)
Definition counted_password (lines : list str) (password : str) : Prop :=
  ∃ s id x y,
    s ∈ lines ∧ split Batcher.SEP (strip s) = [id; x; y]
    ∧ discard_password y || discard_password x = false
    ∧ (password = x ∨ password = y).

(** * Properties *)

(** Closed decidable facts are settled by evaluation. *)
Ltac by_compute := apply (bool_decide_unpack _); vm_compute; exact I.

(** ** The error monad *)

Lemma rbind_Ok {A B} (a : A) (k : A → result B) : rbind (Ok a) k = k a.
Proof. done. Qed.

Lemma rbind_Raise {A B} (e : exn) (k : A → result B) :
  rbind (Raise e) k = Raise e.
Proof. done. Qed.

Lemma try_except_Ok {A} (a : A) (e : exn) (handler : result A) :
  try_except (Ok a) e handler = Ok a.
Proof. done. Qed.

Lemma try_except_handled {A} (e : exn) (handler : result A) :
  try_except (Raise e) e handler = handler.
Proof. unfold try_except. by rewrite decide_True. Qed.

Lemma for_each_app {A S} (body : S → A → result S) (s : S) (l1 l2 : list A) :
  for_each body s (l1 ++ l2)
  = do s' <- for_each body s l1; for_each body s' l2.
Proof.
  revert s. induction l1 as [|a l1 IH]; intros s; simpl; [done|].
  destruct (body s a) as [e|s']; simpl; [done|]. apply IH.
Qed.

Lemma map_result_Ok {A B} (f : A → result B) (g : A → B) (l : list A) :
  Forall (λ a, f a = Ok (g a)) l → map_result f l = Ok (g <$> l).
Proof.
  induction 1 as [|a l Ha _ IH]; simpl; [done|]. by rewrite Ha, IH.
Qed.

Lemma map_result_fmap {A B C} (f : B → result C) (g : A → B) (l : list A) :
  map_result f (g <$> l) = map_result (f ∘ g) l.
Proof. induction l as [|a l IH]; csimpl; [done|]. by rewrite IH. Qed.

Lemma map_result_Raise {A B} (f : A → result B) (e : exn) (l : list A) :
  Forall (λ a, f a = Raise e ∨ ∃ b, f a = Ok b) l →
  Exists (λ a, f a = Raise e) l →
  map_result f l = Raise e.
Proof.
  induction 1 as [|a l Ha _ IH]; intros Hex; simpl.
  - by apply Exists_nil in Hex.
  - destruct Ha as [Ha|[b Ha]]; rewrite Ha; simpl; [done|].
    apply Exists_cons in Hex as [Hex|Hex]; [congruence|].
    by rewrite IH.
Qed.

(** ** Dictionaries *)

Section dict_facts.
Context {K V : Type} `{EqDecision K}.
Implicit Types (d : list (K * V)) (k : K) (v : V).

Lemma get_None d k : PyDict.get d k = None ↔ k ∉ PyDict.keys d.
Proof.
  unfold PyDict.keys. induction d as [|[k' v'] d IH]; simpl.
  - split; [intros _; apply not_elem_of_nil|done].
  - rewrite not_elem_of_cons. case_decide; [|tauto].
    split; [done|]. intros [? _]. done.
Qed.

Lemma get_Some_elem_of d k v : PyDict.get d k = Some v → (k, v) ∈ d.
Proof.
  induction d as [|[k' v'] d IH]; simpl; [done|].
  case_decide; [intros [= ->]; subst; left|right; auto].
Qed.

Lemma get_NoDup d k v :
  NoDup (PyDict.keys d) → PyDict.get d k = Some v ↔ (k, v) ∈ d.
Proof.
  intros Hnd. split; [apply get_Some_elem_of|].
  unfold PyDict.keys in Hnd.
  induction d as [|[k' v'] d IH]; simpl in *; [by intros ?%elem_of_nil|].
  apply NoDup_cons in Hnd as [Hk' Hnd].
  intros [[= -> ->]|Hin]%elem_of_cons; [by case_decide|].
  case_decide as Hk; [|by apply IH].
  subst. exfalso. apply Hk'. apply list_elem_of_fmap. by exists (k', v).
Qed.

Lemma get_setitem d k v k' :
  PyDict.get (PyDict.setitem d k v) k'
  = if decide (k' = k) then Some v else PyDict.get d k'.
Proof.
  induction d as [|[k0 v0] d IH]; simpl.
  - by repeat case_decide.
  - destruct (decide (k = k0)) as [->|Hne]; simpl.
    + by repeat case_decide.
    + rewrite IH. repeat case_decide; congruence.
Qed.

Lemma setitem_fresh d k v :
  k ∉ PyDict.keys d → PyDict.setitem d k v = d ++ [(k, v)].
Proof.
  unfold PyDict.keys. induction d as [|[k0 v0] d IH]; simpl; [done|].
  rewrite not_elem_of_cons. intros [Hne Hd].
  case_decide; [done|]. by rewrite IH.
Qed.

Lemma keys_setitem_elem_of d k v k' :
  k' ∈ PyDict.keys (PyDict.setitem d k v) ↔ k' = k ∨ k' ∈ PyDict.keys d.
Proof.
  unfold PyDict.keys. induction d as [|[k0 v0] d IH]; simpl.
  - rewrite list_elem_of_singleton, elem_of_nil. tauto.
  - case_decide; subst; simpl; rewrite !elem_of_cons; [tauto|].
    rewrite IH. tauto.
Qed.

Lemma keys_setitem_NoDup d k v :
  NoDup (PyDict.keys d) → NoDup (PyDict.keys (PyDict.setitem d k v)).
Proof.
  unfold PyDict.keys. induction d as [|[k0 v0] d IH]; simpl.
  - intros _. apply NoDup_singleton.
  - rewrite NoDup_cons. intros [Hk0 Hnd].
    case_decide; subst; simpl; apply NoDup_cons; [done|].
    split; [|by apply IH].
    intros Hin. apply (keys_setitem_elem_of d k v k0) in Hin as [?|?];
      [congruence|done].
Qed.

Lemma foldl_setitem_NoDup (acc l : list (K * V)) :
  NoDup (PyDict.keys (acc ++ l)) →
  foldl (λ d p, PyDict.setitem d p.1 p.2) acc l = acc ++ l.
Proof.
  unfold PyDict.keys. revert acc.
  induction l as [|[k v] l IH]; intros acc Hnd; simpl.
  - by rewrite app_nil_r.
  - rewrite setitem_fresh.
    + rewrite IH; [by rewrite <-app_assoc|]. by rewrite <-app_assoc.
    + rewrite fmap_app in Hnd. apply NoDup_app in Hnd as (_ & Hnd & _).
      intros Hin. apply (Hnd _ Hin). simpl. left.
Qed.

Lemma of_pairs_NoDup (l : list (K * V)) :
  NoDup l.*1 → PyDict.of_pairs l = l.
Proof. intros Hnd. by apply (foldl_setitem_NoDup []). Qed.

Lemma foldl_setitem_keys_NoDup (acc l : list (K * V)) :
  NoDup (PyDict.keys acc) →
  NoDup (PyDict.keys (foldl (λ d p, PyDict.setitem d p.1 p.2) acc l)).
Proof.
  revert acc. induction l as [|[k v] l IH]; intros acc Hnd; simpl; [done|].
  apply IH. by apply keys_setitem_NoDup.
Qed.

Lemma foldl_setitem_keys_elem_of (acc l : list (K * V)) k :
  k ∈ PyDict.keys (foldl (λ d p, PyDict.setitem d p.1 p.2) acc l)
  ↔ k ∈ PyDict.keys acc ∨ k ∈ l.*1.
Proof.
  revert acc. induction l as [|[k' v] l IH]; intros acc; simpl.
  - rewrite elem_of_nil. tauto.
  - rewrite IH, keys_setitem_elem_of, elem_of_cons. tauto.
Qed.

Lemma keys_of_pairs_NoDup (l : list (K * V)) :
  NoDup (PyDict.keys (PyDict.of_pairs l)).
Proof. apply foldl_setitem_keys_NoDup. apply NoDup_nil_2. Qed.

Lemma keys_of_pairs_elem_of (l : list (K * V)) k :
  k ∈ PyDict.keys (PyDict.of_pairs l) ↔ k ∈ l.*1.
Proof.
  unfold PyDict.of_pairs. rewrite foldl_setitem_keys_elem_of.
  unfold PyDict.keys. simpl. rewrite elem_of_nil. tauto.
Qed.

(** A dictionary built from pairs has as many entries as there are pairs
    exactly when the keys of the pairs are distinct. *)
Lemma len_of_pairs_NoDup (l : list (K * V)) :
  PyDict.len (PyDict.of_pairs l) = length l ↔ NoDup l.*1.
Proof.
  split; [|intros Hnd; by rewrite of_pairs_NoDup].
  unfold PyDict.len. intros Hlen.
  assert (PyDict.keys (PyDict.of_pairs l) ≡ₚ l.*1) as <-;
    [|apply keys_of_pairs_NoDup].
  apply submseteq_length_Permutation.
  - apply NoDup_submseteq; [apply keys_of_pairs_NoDup|].
    intros k. by rewrite keys_of_pairs_elem_of.
  - unfold PyDict.keys. rewrite !length_fmap. lia.
Qed.

End dict_facts.

(** ** enumerate *)

Section enumerate_facts.
Context {A : Type}.
Implicit Types (l : list A).

Lemma enumerate_fst l : (enumerate l).*1 = Z.of_nat <$> seq 0 (length l).
Proof.
  unfold enumerate. apply list_eq. intros i.
  rewrite !list_lookup_fmap, list_lookup_imap.
  destruct (l !! i) as [a|] eqn:Hi; simpl.
  - rewrite lookup_seq_lt; [done|]. by eapply lookup_lt_Some.
  - rewrite lookup_seq_ge; [done|]. by apply lookup_ge_None.
Qed.

Lemma enumerate_snd l : (enumerate l).*2 = l.
Proof.
  unfold enumerate. apply list_eq. intros i.
  rewrite list_lookup_fmap, list_lookup_imap. by destruct (l !! i).
Qed.

Lemma enumerate_fst_NoDup l : NoDup (enumerate l).*1.
Proof.
  rewrite enumerate_fst. apply NoDup_fmap_2; [apply _|apply NoDup_seq].
Qed.

Lemma elem_of_enumerate l (z : Z) (a : A) :
  (z, a) ∈ enumerate l ↔ 0 ≤ z ∧ l !! Z.to_nat z = Some a.
Proof.
  unfold enumerate. rewrite list_elem_of_lookup. split.
  - intros [i Hi]. rewrite list_lookup_imap in Hi.
    destruct (l !! i) as [a'|] eqn:Hl; simplify_eq/=.
    split; [lia|]. by rewrite Nat2Z.id.
  - intros [Hz Hl]. exists (Z.to_nat z).
    rewrite list_lookup_imap, Hl. simpl. by rewrite Z2Nat.id.
Qed.

(** [dict((i, c) for i, c in enumerate(l))] *)
Lemma dict_enumerate l :
  PyDict.of_pairs ((λ p, (p.1, p.2)) <$> enumerate l) = enumerate l.
Proof.
  rewrite (list_fmap_ext _ id (enumerate l)) by (by intros i [??]).
  rewrite list_fmap_id. apply of_pairs_NoDup, enumerate_fst_NoDup.
Qed.

Lemma get_enumerate l (z : Z) :
  PyDict.get (enumerate l) z
  = if decide (0 ≤ z) then l !! Z.to_nat z else None.
Proof.
  destruct (PyDict.get (enumerate l) z) as [a|] eqn:Hg.
  - apply get_NoDup in Hg; [|apply enumerate_fst_NoDup].
    apply elem_of_enumerate in Hg as [? ->]. by case_decide.
  - case_decide as Hz; [|done].
    destruct (l !! Z.to_nat z) as [a|] eqn:Hl; [|done].
    assert ((z, a) ∈ enumerate l) as Hin by by apply elem_of_enumerate.
    apply get_NoDup in Hin; [congruence|apply enumerate_fst_NoDup].
Qed.
End enumerate_facts.

(** [dict((c, i) for i, c in enumerate(l))] for distinct [l] *)
Lemma dict_enumerate_swap `{EqDecision A} (l : list A) :
  NoDup l →
  PyDict.of_pairs ((λ p, (p.2, p.1)) <$> enumerate l)
  = (λ p, (p.2, p.1)) <$> enumerate l.
Proof.
  intros Hnd. apply of_pairs_NoDup.
  rewrite <-list_fmap_compose.
  rewrite (list_fmap_ext _ snd (enumerate l)) by (by intros i [??]).
  by rewrite enumerate_snd.
Qed.

Lemma get_enumerate_swap `{EqDecision A} (l : list A) (a : A) (z : Z) :
  NoDup l →
  PyDict.get ((λ p, (p.2, p.1)) <$> enumerate l) a = Some z
  ↔ 0 ≤ z ∧ l !! Z.to_nat z = Some a.
Proof.
  intros Hnd. rewrite get_NoDup.
  - rewrite list_elem_of_fmap. split.
    + intros [[z' a'] [[= -> ->] Hin]]. by apply elem_of_enumerate.
    + intros Hin. exists (z, a). split; [done|]. by apply elem_of_enumerate.
  - unfold PyDict.keys. rewrite <-list_fmap_compose.
    rewrite (list_fmap_ext _ snd (enumerate l)) by (by intros i [??]).
    by rewrite enumerate_snd.
Qed.

(** ** sorted *)

Section sorted_facts.
Context {A : Type} (before : A → A → bool).

Lemma sorted_insert_Permutation (a : A) (l : list A) :
  sorted_insert before a l ≡ₚ a :: l.
Proof.
  induction l as [|b l IH]; simpl; [done|].
  destruct (before b a); [|done]. rewrite IH. apply Permutation_swap.
Qed.

Lemma sorted_Permutation (l : list A) : sorted before l ≡ₚ l.
Proof.
  induction l as [|a l IH]; simpl; [done|].
  by rewrite sorted_insert_Permutation, IH.
Qed.

Lemma length_sorted (l : list A) : length (sorted before l) = length l.
Proof. by rewrite sorted_Permutation. Qed.

Lemma elem_of_sorted (l : list A) (a : A) : a ∈ sorted before l ↔ a ∈ l.
Proof. by rewrite sorted_Permutation. Qed.

Lemma NoDup_sorted (l : list A) : NoDup (sorted before l) ↔ NoDup l.
Proof. by rewrite sorted_Permutation. Qed.
End sorted_facts.

(** [sorted] orders its result by any transitive relation [R] that holds
    from [a] to [b] whenever [b] does not come strictly before [a]. *)
Section sorted_order.
Context {A : Type} (before : A → A → bool) (R : relation A).
Hypothesis R_not_before : ∀ a b, before b a = false → R a b.
Hypothesis before_R : ∀ a b, before b a = true → R b a.
Hypothesis R_trans : Transitive R.

Lemma sorted_insert_StronglySorted (a : A) (l : list A) :
  StronglySorted R l → StronglySorted R (sorted_insert before a l).
Proof.
  induction 1 as [|b l Hl IH Hb]; simpl.
  - repeat constructor.
  - destruct (before b a) eqn:Hba.
    + constructor; [done|].
      rewrite Forall_forall. intros x.
      rewrite sorted_insert_Permutation, elem_of_cons.
      rewrite Forall_forall in Hb. intros [->|Hx]; [by apply before_R|].
      by apply Hb.
    + constructor; [by constructor|].
      constructor; [by apply R_not_before|].
      eapply Forall_impl; [exact Hb|]. intros x Hx.
      transitivity b; [by apply R_not_before|done].
Qed.

Lemma sorted_StronglySorted (l : list A) : StronglySorted R (sorted before l).
Proof.
  induction l as [|a l IH]; simpl;
    [constructor|by apply sorted_insert_StronglySorted].
Qed.
End sorted_order.

(** Sorting characters: ascending code points. *)

Lemma sorted_le (l : list char) : StronglySorted N.le (sorted N.ltb l).
Proof.
  apply sorted_StronglySorted; [| |apply _].
  - intros a b Hba. apply N.ltb_ge in Hba. done.
  - intros a b Hba. apply N.ltb_lt in Hba. lia.
Qed.

(** Sorting the items of a counter by descending count. *)

Lemma sorted_desc (l : list (char * Z)) :
  StronglySorted (λ p q, q.2 ≤ p.2) (sorted (λ p q, q.2 <? p.2) l).
Proof.
  apply sorted_StronglySorted.
  - intros a b Hba. apply Z.ltb_ge in Hba. done.
  - intros a b Hba. apply Z.ltb_lt in Hba. lia.
  - intros a b c ??. lia.
Qed.

Lemma StronglySorted_le_lt (l : list char) :
  StronglySorted N.le l → NoDup l → StronglySorted N.lt l.
Proof.
  induction 1 as [|c l Hl IH Hc]; intros Hnd; [constructor|].
  apply NoDup_cons in Hnd as [Hnin Hnd].
  constructor; [by apply IH|].
  rewrite Forall_forall in Hc |- *. intros x Hx.
  specialize (Hc x Hx). simpl in Hc.
  assert (x ≠ c) by (by intros ->). lia.
Qed.

Lemma StronglySorted_lt_le (l : list char) :
  StronglySorted N.lt l → StronglySorted N.le l.
Proof.
  induction 1 as [|c l Hl IH Hc]; constructor; [done|].
  eapply Forall_impl; [exact Hc|]. intros x Hx. simpl in Hx. lia.
Qed.

Lemma StronglySorted_lt_NoDup (l : list char) :
  StronglySorted N.lt l → NoDup l.
Proof.
  induction 1 as [|c l Hl IH Hc]; constructor; [|done].
  rewrite Forall_forall in Hc. intros Hin. specialize (Hc c Hin).
  simpl in Hc. lia.
Qed.

Lemma sorted_lt (l : list char) :
  NoDup l → StronglySorted N.lt (sorted N.ltb l).
Proof.
  intros Hnd. apply StronglySorted_le_lt; [apply sorted_le|].
  by apply NoDup_sorted.
Qed.

(** A sorted list of distinct characters is determined by its elements:
    [sorted] returns the same list for every order of its input. *)
Lemma sorted_unique (l1 l2 : list char) :
  l1 ≡ₚ l2 → sorted N.ltb l1 = sorted N.ltb l2.
Proof.
  intros Hp. apply (StronglySorted_unique N.le); [apply sorted_le..|].
  by rewrite !sorted_Permutation.
Qed.

Lemma sorted_id (l : list char) : StronglySorted N.lt l → sorted N.ltb l = l.
Proof.
  intros Hl. apply (StronglySorted_unique N.le);
    [apply sorted_le|by apply StronglySorted_lt_le|apply sorted_Permutation].
Qed.

(** [sorted(set(l))] is [l] exactly when [l] is strictly ascending. *)
Lemma sorted_set_id (l : list char) :
  sorted N.ltb (set_of l) = l ↔ StronglySorted N.lt l.
Proof.
  unfold set_of. split.
  - intros <-. apply sorted_lt, NoDup_remove_dups.
  - intros Hl. pose proof (StronglySorted_lt_NoDup _ Hl) as Hnd.
    rewrite (sorted_unique _ l); [by apply sorted_id|].
    apply NoDup_Permutation; [apply NoDup_remove_dups|done|].
    intros x. apply elem_of_remove_dups.
Qed.

(** ** The character table *)

Section table_facts.
Variable cs : str.
Let self := CharacterTable.init cs.

Lemma chars_init :
  CharacterTable.chars self = sorted N.ltb (set_of cs).
Proof. done. Qed.

Lemma chars_sorted : StronglySorted N.lt (CharacterTable.chars self).
Proof. rewrite chars_init. apply sorted_lt, NoDup_remove_dups. Qed.

Lemma chars_NoDup : NoDup (CharacterTable.chars self).
Proof. apply StronglySorted_lt_NoDup, chars_sorted. Qed.

Lemma elem_of_chars (c : char) : c ∈ CharacterTable.chars self ↔ c ∈ cs.
Proof.
  rewrite chars_init, elem_of_sorted. apply elem_of_remove_dups.
Qed.

Lemma char_indices_init :
  CharacterTable.char_indices self
  = (λ p, (p.2, p.1)) <$> enumerate (CharacterTable.chars self).
Proof. apply dict_enumerate_swap, chars_NoDup. Qed.

Lemma indices_char_init :
  CharacterTable.indices_char self = enumerate (CharacterTable.chars self).
Proof. apply dict_enumerate. Qed.

Lemma char_indices_get (c : char) (z : Z) :
  PyDict.get (CharacterTable.char_indices self) c = Some z
  ↔ 0 ≤ z ∧ CharacterTable.chars self !! Z.to_nat z = Some c.
Proof.
  rewrite char_indices_init. apply get_enumerate_swap, chars_NoDup.
Qed.

Lemma char_indices_get_None (c : char) :
  PyDict.get (CharacterTable.char_indices self) c = None ↔ c ∉ cs.
Proof.
  rewrite <-elem_of_chars, get_None, char_indices_init.
  unfold PyDict.keys. rewrite <-list_fmap_compose.
  rewrite (list_fmap_ext _ snd (enumerate (CharacterTable.chars self)))
    by (by intros i [??]).
  by rewrite enumerate_snd.
Qed.

Lemma indices_char_get (z : Z) :
  PyDict.get (CharacterTable.indices_char self) z
  = if decide (0 ≤ z) then CharacterTable.chars self !! Z.to_nat z
    else None.
Proof. rewrite indices_char_init. apply get_enumerate. Qed.

Lemma char_indices_elem_of (c : char) :
  c ∈ cs →
  ∃ j : nat,
    PyDict.get (CharacterTable.char_indices self) c = Some (Z.of_nat j)
    ∧ CharacterTable.chars self !! j = Some c
    ∧ (j < length (CharacterTable.chars self))%nat.
Proof.
  intros Hc. apply elem_of_chars, list_elem_of_lookup in Hc as [j Hj].
  exists j. split_and!; [|done|by eapply lookup_lt_Some].
  apply char_indices_get. by rewrite Nat2Z.id; split; [lia|].
Qed.

Lemma contains_char_indices (c : char) :
  PyDict.contains (CharacterTable.char_indices self) c
  = bool_decide (c ∈ CharacterTable.chars self).
Proof.
  unfold PyDict.contains.
  destruct (PyDict.get _ c) as [z|] eqn:Hg; symmetry.
  - apply bool_decide_eq_true. apply char_indices_get in Hg as [_ Hg].
    by eapply list_elem_of_lookup_2.
  - apply bool_decide_eq_false. rewrite elem_of_chars.
    by apply char_indices_get_None.
Qed.
End table_facts.

(** ** encode *)

Lemma np_index_ok (n j : nat) : (j < n)%nat → np.index n (Z.of_nat j) = Ok j.
Proof.
  intros Hj. unfold np.index.
  rewrite decide_True by lia. by rewrite Nat2Z.id.
Qed.

Lemma setitem2_ok (x : list (list Z)) (i j : nat) (row : list Z) :
  x !! i = Some row → (j < length row)%nat →
  np.setitem2 x (Z.of_nat i) (Z.of_nat j) 1 = Ok (<[i := <[j := 1]> row]> x).
Proof.
  intros Hi Hj. unfold np.setitem2.
  rewrite np_index_ok by (by eapply lookup_lt_Some). simpl.
  rewrite Hi. by rewrite np_index_ok.
Qed.

Section encode_facts.
Variable cs : str.
Let self := CharacterTable.init cs.
Let width := length (CharacterTable.chars self).

Lemma index_of_spec (c : char) :
  c ∈ cs →
  PyDict.get (CharacterTable.char_indices self) c
  = Some (Z.of_nat (index_of self c))
  ∧ CharacterTable.chars self !! index_of self c = Some c
  ∧ (index_of self c < width)%nat.
Proof.
  intros Hc.
  destruct (char_indices_elem_of cs _ Hc) as (j & Hg & Hj & Hlt).
  unfold index_of. fold self in Hg |- *. rewrite Hg. simpl.
  by rewrite Nat2Z.id.
Qed.

Lemma getitem_char_indices (c : char) :
  PyDict.getitem (CharacterTable.char_indices self) c
  = if bool_decide (c ∈ cs) then Ok (Z.of_nat (index_of self c))
    else Raise KeyError.
Proof.
  unfold PyDict.getitem. case_bool_decide as Hc.
  - destruct (index_of_spec c Hc) as [-> _]. done.
  - apply (char_indices_get_None cs) in Hc. fold self in Hc.
    by rewrite Hc.
Qed.

(** One round of the loop of [encode]: the row is set at the index of its
    character, and the only failure is the lookup of a character that the
    table does not have. *)
Lemma encode_row_spec (C : str) (x : list (list Z)) (i : nat) (row : list Z) :
  x !! i = Some row → length row = width →
  CharacterTable.encode_row self C x i
  = if bool_decide (row_char self C i ∈ cs)
    then Ok (<[i := <[index_of self (row_char self C i) := 1]> row]> x)
    else Raise KeyError.
Proof.
  intros Hi Hrow.
  assert (∀ c, c ∈ cs →
    np.setitem2 x (Z.of_nat i) (Z.of_nat (index_of self c)) 1
    = Ok (<[i := <[index_of self c := 1]> row]> x)) as Hset.
  { intros c Hc. apply setitem2_ok; [done|].
    rewrite Hrow. by apply index_of_spec. }
  assert (∀ c,
    try_except
      (do j <- PyDict.getitem (CharacterTable.char_indices self) c;
       np.setitem2 x (Z.of_nat i) j 1)
      IndexError
      (do j <- PyDict.getitem (CharacterTable.char_indices self) (ord " ");
       np.setitem2 x (Z.of_nat i) j 1)
    = if bool_decide (c ∈ cs)
      then Ok (<[i := <[index_of self c := 1]> row]> x)
      else Raise KeyError) as Htry.
  { intros c. rewrite (getitem_char_indices c).
    case_bool_decide; [|done].
    by rewrite rbind_Ok, Hset, try_except_Ok. }
  unfold CharacterTable.encode_row, row_char.
  destruct (C !! i) as [c|].
  - rewrite rbind_Ok, (contains_char_indices cs). fold self.
    destruct (bool_decide (c ∈ CharacterTable.chars self)) eqn:Hc;
      cbn [negb]; apply Htry.
  - rewrite rbind_Raise, try_except_handled.
    rewrite (getitem_char_indices (ord " ")).
    change (ord " ") with Batcher.PAD_CHAR.
    case_bool_decide; [|done]. by rewrite rbind_Ok, Hset.
Qed.

Lemma encode_loop (C : str) (num_rows k : nat) :
  (k ≤ num_rows)%nat →
  for_each (CharacterTable.encode_row self C) (np.zeros num_rows width)
    (range k)
  = if decide (Forall (λ i, row_char self C i ∈ cs) (range k))
    then Ok (encode_rows self C k
             ++ replicate (num_rows - k) (replicate width 0))
    else Raise KeyError.
Proof.
  unfold range, encode_rows, np.zeros. fold width.
  induction k as [|k IH]; intros Hk.
  - rewrite Nat.sub_0_r. cbn [seq for_each].
    case_decide as Hnil; [done|]. destruct Hnil. constructor.
  - rewrite seq_S, for_each_app, IH by lia. cbn [Nat.add].
    destruct (decide (Forall _ (seq 0 k))) as [Hall|Hall].
    2:{ rewrite decide_False; [done|]. by intros [??]%Forall_app. }
    rewrite rbind_Ok. cbn [for_each].
    replace (num_rows - k)%nat with (S (num_rows - S k)) by lia.
    set (done_rows := (λ i, one_hot width _) <$> seq 0 k).
    assert (length done_rows = k) as Hlen
      by (unfold done_rows; by rewrite length_fmap, length_seq).
    erewrite encode_row_spec;
      [|by rewrite lookup_app_r, Hlen, Nat.sub_diag by lia
       |by rewrite length_replicate].
    case_bool_decide as Hk'.
    + rewrite decide_True by (apply Forall_app; by repeat constructor).
      rewrite rbind_Ok, fmap_app. simpl. fold done_rows.
      rewrite insert_app_r_alt, Hlen, Nat.sub_diag by lia. simpl.
      by rewrite <-app_assoc.
    + rewrite decide_False; [done|].
      rewrite Forall_app, Forall_singleton. tauto.
Qed.

(** [encode] returns the rows of [encode_rows] when every character it
    looks up is in the table, and raises KeyError otherwise. *)
Lemma encode_spec (C : str) (num_rows : nat) :
  CharacterTable.encode self C num_rows
  = if decide (Forall (λ i, row_char self C i ∈ cs) (range num_rows))
    then Ok (encode_rows self C num_rows)
    else Raise KeyError.
Proof.
  unfold CharacterTable.encode. fold width.
  rewrite encode_loop by lia. case_decide; [|done].
  by rewrite Nat.sub_diag, app_nil_r.
Qed.

Lemma row_char_in (C : str) (i : nat) :
  Batcher.OOV_CHAR ∈ cs → Batcher.PAD_CHAR ∈ cs → row_char self C i ∈ cs.
Proof.
  intros HOOV HPAD. unfold row_char. destruct (C !! i) as [c|]; [|done].
  case_bool_decide as Hc; [|done]. by apply (elem_of_chars cs).
Qed.

Lemma encode_ok (C : str) (num_rows : nat) :
  Batcher.OOV_CHAR ∈ cs → Batcher.PAD_CHAR ∈ cs →
  CharacterTable.encode self C num_rows = Ok (encode_rows self C num_rows).
Proof.
  intros HOOV HPAD. rewrite encode_spec. rewrite decide_True; [done|].
  apply Forall_forall. intros i _. by apply row_char_in.
Qed.
End encode_facts.

Lemma count_ones_one_hot (n j : nat) : (j < n)%nat → count_ones (one_hot n j) = 1%nat.
Proof.
  intros Hj. unfold count_ones, one_hot.
  rewrite insert_replicate_lt by done.
  rewrite filter_app, filter_cons_True by done.
  assert (∀ m, filter (λ v : Z, v = 1) (replicate m 0) = []) as Hz.
  { intros m. induction m as [|m IH]; simpl; [done|].
    by rewrite filter_cons_False. }
  by rewrite !Hz.
Qed.

Lemma row_char_take (self : CharacterTable.t) (C : str) (n i : nat) :
  (i < n)%nat → row_char self (take n C) i = row_char self C i.
Proof. intros Hi. unfold row_char. by rewrite lookup_take_lt. Qed.

(** ** argmax and decode *)

Lemma argmax_from_le (best_i : nat) (best : Z) (i : nat) (l : list Z) :
  Forall (λ v, v ≤ best) l → np.argmax_from best_i best i l = best_i.
Proof.
  intros Hl. revert i. induction Hl as [|v l Hv _ IH]; intros i; simpl; [done|].
  destruct (Z.ltb_spec best v); [lia|apply IH].
Qed.

Lemma argmax_from_zeros_one (best_i i a b : nat) :
  np.argmax_from best_i 0 i (replicate a 0 ++ 1 :: replicate b 0)
  = (i + a)%nat.
Proof.
  revert i. induction a as [|a IH]; intros i; simpl.
  - rewrite argmax_from_le; [lia|].
    apply Forall_replicate. lia.
  - rewrite IH. lia.
Qed.

Lemma argmax_one_hot (n j : nat) :
  (j < n)%nat → np.argmax (one_hot n j) = Ok (Z.of_nat j).
Proof.
  intros Hj. unfold one_hot. rewrite insert_replicate_lt by done.
  destruct j as [|j]; simpl.
  - rewrite argmax_from_le; [done|]. apply Forall_replicate. lia.
  - by rewrite argmax_from_zeros_one.
Qed.

Section decode_facts.
Variable cs : str.
Let self := CharacterTable.init cs.
Let width := length (CharacterTable.chars self).

Lemma getitem_indices_char (z : Z) :
  PyDict.getitem (CharacterTable.indices_char self) z
  = if decide (0 ≤ z < Z.of_nat width)
    then match CharacterTable.chars self !! Z.to_nat z with
         | Some c => Ok c
         | None => Raise KeyError
         end
    else Raise KeyError.
Proof.
  unfold PyDict.getitem. rewrite (indices_char_get cs). fold self.
  destruct (decide (0 ≤ z)) as [Hz|Hz].
  - case_decide as Hlt; [done|].
    rewrite lookup_ge_None_2; [done|]. fold width. lia.
  - rewrite decide_False by lia. done.
Qed.

Lemma getitem_indices_char_in (z : Z) :
  0 ≤ z < Z.of_nat width →
  ∃ c, PyDict.getitem (CharacterTable.indices_char self) z = Ok c
       ∧ CharacterTable.chars self !! Z.to_nat z = Some c.
Proof.
  intros Hz. rewrite getitem_indices_char, decide_True by done.
  destruct (lookup_lt_is_Some_2 (CharacterTable.chars self) (Z.to_nat z))
    as [c Hc]; [fold width; lia|].
  exists c. by rewrite Hc.
Qed.

Lemma getitem_indices_char_out (z : Z) :
  ¬ (0 ≤ z < Z.of_nat width) →
  PyDict.getitem (CharacterTable.indices_char self) z = Raise KeyError.
Proof. intros Hz. by rewrite getitem_indices_char, decide_False. Qed.

Lemma getitem_index_of (c : char) :
  c ∈ cs →
  PyDict.getitem (CharacterTable.indices_char self)
    (Z.of_nat (index_of self c)) = Ok c.
Proof.
  intros Hc. destruct (index_of_spec cs c Hc) as (_ & Hl & Hlt).
  fold self in Hl, Hlt.
  rewrite getitem_indices_char, decide_True by (fold width; lia).
  by rewrite Nat2Z.id, Hl.
Qed.

(** Decoding what [encode] returned gives back the character of every
    row. *)
Lemma decode_encode_rows (C : str) (num_rows : nat) :
  Batcher.OOV_CHAR ∈ cs → Batcher.PAD_CHAR ∈ cs →
  CharacterTable.decode self (np.Arr2 (encode_rows self C num_rows)) true
  = Ok (row_char self C <$> seq 0 num_rows).
Proof.
  intros HOOV HPAD. unfold CharacterTable.decode, np.argmax_last.
  unfold encode_rows. rewrite map_result_fmap.
  rewrite (map_result_Ok _
    (λ i, Z.of_nat (index_of self (row_char self C i)))).
  - rewrite rbind_Ok, map_result_fmap.
    apply map_result_Ok, Forall_forall. intros i _. simpl.
    apply getitem_index_of, row_char_in; done.
  - apply Forall_forall. intros i _. simpl.
    apply argmax_one_hot, (index_of_spec cs), row_char_in; done.
Qed.

Lemma row_char_known (C : str) (num_rows : nat) :
  Forall (λ c, c ∈ cs) C → (length C ≤ num_rows)%nat →
  row_char self C <$> seq 0 num_rows
  = C ++ replicate (num_rows - length C) Batcher.PAD_CHAR.
Proof.
  intros HC Hlen. apply list_eq. intros i.
  rewrite list_lookup_fmap. unfold row_char.
  destruct (decide (i < length C)%nat) as [Hi|Hi].
  - rewrite lookup_seq_lt by lia. rewrite lookup_app_l by done. simpl.
    destruct (lookup_lt_is_Some_2 C i Hi) as [c Hc]. rewrite Hc.
    rewrite bool_decide_eq_true_2; [done|].
    apply (elem_of_chars cs). rewrite Forall_forall in HC.
    apply HC. by eapply list_elem_of_lookup_2.
  - rewrite lookup_app_r by lia.
    destruct (decide (i < num_rows)%nat) as [Hn|Hn].
    + rewrite lookup_seq_lt by lia. simpl.
      rewrite lookup_ge_None_2 by lia.
      by rewrite lookup_replicate_2 by lia.
    + rewrite lookup_seq_ge by lia. simpl.
      symmetry. apply lookup_replicate_None. lia.
Qed.
End decode_facts.

Lemma lstrip_pad_replicate (k : nat) (s : str) :
  lstrip_pad (replicate k Batcher.PAD_CHAR ++ s) = lstrip_pad s.
Proof.
  induction k as [|k IH]; [done|].
  cbn [replicate app lstrip_pad]. by rewrite decide_True.
Qed.

Lemma rstrip_pad_padded (s : str) (k : nat) :
  last s ≠ Some Batcher.PAD_CHAR →
  rstrip_pad (s ++ replicate k Batcher.PAD_CHAR) = s.
Proof.
  intros Hlast. unfold rstrip_pad.
  rewrite reverse_app, reverse_replicate, lstrip_pad_replicate.
  destruct (reverse s) as [|c r] eqn:Hr.
  - apply (f_equal reverse) in Hr. rewrite reverse_involutive in Hr.
    by subst.
  - cbn [lstrip_pad]. rewrite decide_False.
    + by rewrite <-Hr, reverse_involutive.
    + intros ->. apply Hlast.
      apply (f_equal reverse) in Hr. rewrite reverse_involutive in Hr.
      rewrite Hr, reverse_cons. apply last_snoc.
Qed.

(** * The character table: encode and decode *)

(** C1: for a table holding both sentinels, [encode(text, num_rows)] returns
    [num_rows] rows of the width of the table; row [i] is one-hot at the
    index of [text[i]] when that character is in the table, at the index of
    the OOV character when it is not, and at the index of the pad character
    when [i] is past the end of [text].  Every row holds exactly one 1, and
    two texts that agree on their first [num_rows] characters have the same
    encoding. *)
Theorem encode_one_hot (chars text : str) (num_rows : nat) :
  Batcher.OOV_CHAR ∈ chars → Batcher.PAD_CHAR ∈ chars →
  let self := CharacterTable.init chars in
  let width := length (CharacterTable.chars self) in
  let index_is (c : char) (j : nat) :=
    PyDict.get (CharacterTable.char_indices self) c = Some (Z.of_nat j) in
  ∃ x : list (list Z),
    CharacterTable.encode self text num_rows = Ok x
    ∧ length x = num_rows
    ∧ Forall (λ row, length row = width) x
    ∧ (∀ i, (i < num_rows)%nat →
         ∃ j, (j < width)%nat ∧ x !! i = Some (one_hot width j)
              ∧ match text !! i with
                | Some c =>
                    if decide (c ∈ CharacterTable.chars self)
                    then index_is c j
                    else index_is Batcher.OOV_CHAR j
                | None => index_is Batcher.PAD_CHAR j
                end)
    ∧ Forall (λ row, count_ones row = 1%nat) x
    ∧ (∀ text', take num_rows text' = take num_rows text →
         CharacterTable.encode self text' num_rows = Ok x).
Proof.
  intros HOOV HPAD self width index_is.
  exists (encode_rows self text num_rows).
  assert (∀ C i, (index_of self (row_char self C i) < width)%nat) as Hlt.
  { intros C i. apply (index_of_spec chars), row_char_in; done. }
  split_and!.
  - by apply encode_ok.
  - unfold encode_rows. by rewrite length_fmap, length_seq.
  - unfold encode_rows. apply Forall_fmap, Forall_forall. intros i _. simpl.
    unfold one_hot. by rewrite length_insert, length_replicate.
  - intros i Hi. exists (index_of self (row_char self text i)).
    split_and!; [apply Hlt| |].
    + unfold encode_rows. by rewrite list_lookup_fmap, lookup_seq_lt.
    + pose proof (index_of_spec chars (row_char self text i)
                    (row_char_in chars text i HOOV HPAD)) as [Hg _].
      fold self in Hg. unfold row_char in Hg. unfold index_is, row_char.
      destruct (text !! i) as [c|]; [|done].
      case_decide; [by rewrite bool_decide_eq_true_2 in Hg
                   |by rewrite bool_decide_eq_false_2 in Hg].
  - unfold encode_rows. apply Forall_fmap, Forall_forall. intros i _. simpl.
    apply count_ones_one_hot, Hlt.
  - intros text' Htake. rewrite (encode_ok chars) by done. fold self.
    f_equal. unfold encode_rows. apply list_fmap_ext. intros k i Hk.
    apply lookup_seq in Hk as [Heq Hk]. simpl in Heq. subst i. simpl.
    rewrite <-(row_char_take self text' num_rows k) by done.
    rewrite <-(row_char_take self text num_rows k) by done.
    by rewrite Htake.
Qed.

Lemma encode_one_hot_witness :
  ∃ x, CharacterTable.encode (CharacterTable.init abc_chars) (pystr "abz") 4
       = Ok x
       ∧ length x = 4%nat.
Proof.
  destruct (encode_one_hot abc_chars (pystr "abz") 4) as (x & Hx & Hlen & _).
  - by_compute.
  - by_compute.
  - by exists x.
Defined.

(** C10: [encode] raises KeyError when the table lacks the OOV character and
    some character among the first [num_rows] of [text] is not in the table,
    and when the table lacks the pad character and [text] is shorter than
    [num_rows]. *)
Theorem encode_missing_sentinel (chars text : str) (num_rows : nat) :
  ((Batcher.OOV_CHAR ∉ chars)
   ∧ (∃ i c, (i < num_rows)%nat ∧ text !! i = Some c
             ∧ c ∉ CharacterTable.chars (CharacterTable.init chars)))
  ∨ ((Batcher.PAD_CHAR ∉ chars) ∧ (length text < num_rows)%nat) →
  CharacterTable.encode (CharacterTable.init chars) text num_rows
  = Raise KeyError.
Proof.
  intros Hmiss. rewrite encode_spec. rewrite decide_False; [done|].
  rewrite Forall_forall. intros Hall.
  destruct Hmiss as [[HOOV (i & c & Hi & Hc & Hnin)]|[HPAD Hlen]].
  - specialize (Hall i). unfold row_char in Hall. rewrite Hc in Hall.
    rewrite bool_decide_eq_false_2 in Hall by done.
    apply HOOV, Hall. unfold range. apply elem_of_seq. lia.
  - specialize (Hall (length text)). unfold row_char in Hall.
    rewrite lookup_ge_None_2 in Hall by done.
    apply HPAD, Hall. unfold range. apply elem_of_seq. lia.
Qed.

Lemma encode_missing_sentinel_witness :
  CharacterTable.encode (CharacterTable.init (pystr "ab ")) (pystr "az") 3
  = Raise KeyError
  ∧ CharacterTable.encode (CharacterTable.init (pystr "ab")) (pystr "a") 2
    = Raise KeyError.
Proof.
  split.
  - apply encode_missing_sentinel. left. split; [by_compute|].
    exists 1%nat, (ord "z"). split_and!; [lia|done|by_compute].
  - apply encode_missing_sentinel. right. split; [by_compute|simpl; lia].
Defined.

(** C9: [decode(x, calc_argmax=False)] raises KeyError exactly when some
    index of [x] is outside the index range of the table; when every index
    is in range it returns the characters at these indices, in order. *)
Theorem decode_indices (chars : str) (x : list Z) :
  let self := CharacterTable.init chars in
  let in_range (z : Z) :=
    0 ≤ z < Z.of_nat (length (CharacterTable.chars self)) in
  (CharacterTable.decode self (np.Arr1 x) false = Raise KeyError
   ↔ Exists (λ z, ¬ in_range z) x)
  ∧ (Forall in_range x →
     ∃ s, CharacterTable.decode self (np.Arr1 x) false = Ok s
          ∧ Forall2 (λ z c, CharacterTable.chars self !! Z.to_nat z = Some c)
              x s).
Proof.
  intros self in_range.
  assert (Forall in_range x →
    ∃ s, CharacterTable.decode self (np.Arr1 x) false = Ok s
         ∧ Forall2 (λ z c, CharacterTable.chars self !! Z.to_nat z = Some c)
             x s) as Hin.
  { intros Hall.
    exists ((λ z, default 0%N (CharacterTable.chars self !! Z.to_nat z))
              <$> x).
    unfold CharacterTable.decode. rewrite rbind_Ok. split.
    - apply map_result_Ok. eapply Forall_impl; [exact Hall|].
      intros z Hz. cbv beta.
      destruct (getitem_indices_char_in chars z Hz) as (c & Hgc & Hc).
      fold self in Hgc, Hc. by rewrite Hgc, Hc.
    - apply Forall2_fmap_r, Forall_Forall2_diag.
      eapply Forall_impl; [exact Hall|]. intros z Hz. cbv beta.
      destruct (getitem_indices_char_in chars z Hz) as (c & _ & Hc).
      fold self in Hc. unfold compose. by rewrite Hc. }
  split; [|exact Hin]. split.
  - intros Hraise.
    destruct (decide (Exists (λ z, ¬ in_range z) x)) as [|Hnex]; [done|].
    apply not_Exists_Forall in Hnex; [|apply _].
    destruct Hin as (s & Hs & _); [|congruence].
    eapply Forall_impl; [exact Hnex|]. intros z Hz. cbv beta in Hz.
    by apply dec_stable.
  - intros Hex. unfold CharacterTable.decode. rewrite rbind_Ok.
    apply map_result_Raise.
    + apply Forall_forall. intros z _.
      destruct (decide (in_range z)) as [Hz|Hz].
      * right. destruct (getitem_indices_char_in chars z Hz) as (c & Hc & _).
        by exists c.
      * left. by apply getitem_indices_char_out.
    + eapply Exists_impl; [exact Hex|]. intros z Hz. cbv beta.
      by apply getitem_indices_char_out.
Qed.

Lemma decode_indices_witness :
  ∃ s, CharacterTable.decode (CharacterTable.init abc_chars)
         (np.Arr1 [1; 2; 0; 4]) false = Ok s
       ∧ length s = 4%nat.
Proof.
  destruct (decode_indices abc_chars [1; 2; 0; 4]) as [_ Hin].
  destruct Hin as (s & Hs & Hall).
  - repeat constructor; vm_compute; congruence.
  - exists s. split; [done|]. by rewrite <-(Forall2_length _ _ _ Hall).
Defined.

(** A string that ends in the pad character does not survive the round
    trip: the table holds [' '], the two-character string ["a "] fits in two
    rows, and decoding its encoding and trimming the trailing pad characters
    gives ["a"]. *)
Lemma roundtrip_trailing_pad_counterexample :
  let self := CharacterTable.init abc_chars in
  let s := pystr "a " in
  Batcher.OOV_CHAR ∈ abc_chars
  ∧ Batcher.PAD_CHAR ∈ abc_chars
  ∧ (length s ≤ 2)%nat
  ∧ Forall (λ c, c ∈ CharacterTable.chars self) s
  ∧ ∃ x d,
      CharacterTable.encode self s 2 = Ok x
      ∧ CharacterTable.decode self (np.Arr2 x) true = Ok d
      ∧ rstrip_pad d = pystr "a"
      ∧ rstrip_pad d ≠ s.
Proof.
  intros self s. split_and!; [by_compute|by_compute|by_compute|by_compute|].
  exists [[0; 1; 0; 0; 0]; [1; 0; 0; 0; 0]], (pystr "a ").
  split_and!; [by vm_compute..|]. vm_compute. congruence.
Qed.

(** C2, amended: for a table holding both sentinels and a string [s] of at
    most [num_rows] characters, all in the table, that does not end in the
    pad character, decoding [encode(s, num_rows)] with [calc_argmax=True]
    gives [s] followed by pad characters, and trimming the trailing pad
    characters gives [s]. *)
Theorem decode_encode_roundtrip (chars s : str) (num_rows : nat) :
  Batcher.OOV_CHAR ∈ chars → Batcher.PAD_CHAR ∈ chars →
  (length s ≤ num_rows)%nat →
  Forall (λ c, c ∈ CharacterTable.chars (CharacterTable.init chars)) s →
  last s ≠ Some Batcher.PAD_CHAR →
  ∃ x d,
    CharacterTable.encode (CharacterTable.init chars) s num_rows = Ok x
    ∧ CharacterTable.decode (CharacterTable.init chars) (np.Arr2 x) true
      = Ok d
    ∧ d = s ++ replicate (num_rows - length s) Batcher.PAD_CHAR
    ∧ rstrip_pad d = s.
Proof.
  intros HOOV HPAD Hlen Hs Hlast.
  exists (encode_rows (CharacterTable.init chars) s num_rows),
    (s ++ replicate (num_rows - length s) Batcher.PAD_CHAR).
  split_and!; [by apply encode_ok| |done|by apply rstrip_pad_padded].
  rewrite decode_encode_rows by done. f_equal.
  apply row_char_known; [|done].
  eapply Forall_impl; [exact Hs|]. intros c. apply elem_of_chars.
Qed.

Lemma decode_encode_roundtrip_witness :
  ∃ x d,
    CharacterTable.encode (CharacterTable.init abc_chars) (pystr "cab") 5
    = Ok x
    ∧ CharacterTable.decode (CharacterTable.init abc_chars) (np.Arr2 x) true
      = Ok d
    ∧ rstrip_pad d = pystr "cab".
Proof.
  destruct (decode_encode_roundtrip abc_chars (pystr "cab") 5)
    as (x & d & Hx & Hd & _ & Htrim).
  - by_compute.
  - by_compute.
  - simpl. lia.
  - by_compute.
  - vm_compute. congruence.
  - by exists x, d.
Defined.

(** * The discard predicate *)

(** C8: [discard_password] is true exactly for a string of more than 12
    characters or with a space in it; it is true on the 13 characters of
    ["abcdefghijklm"] and on ["ab cd"], and false on ["abcd1234"]. *)
Theorem discard_password_iff (password : str) :
  (discard_password password = true
   ↔ (12 < length password)%nat ∨ ord " " ∈ password)
  ∧ discard_password (pystr "abcdefghijklm") = true
  ∧ discard_password (pystr "ab cd") = true
  ∧ discard_password (pystr "abcd1234") = false.
Proof.
  split_and!; [|done..].
  unfold discard_password.
  rewrite orb_true_iff, !bool_decide_eq_true. done.
Qed.

(** * The vocabulary builder *)

Lemma for_each_invariant {A S} (P : S → Prop) (body : S → A → result S)
    (s s' : S) (l : list A) :
  (∀ s a s', P s → body s a = Ok s' → P s') →
  P s → for_each body s l = Ok s' → P s'.
Proof.
  intros Hstep. revert s. induction l as [|a l IH]; intros s Hs; simpl.
  - by intros [= <-].
  - destruct (body s a) as [e|s1] eqn:Hbody; simpl; [done|].
    apply IH. by eapply Hstep.
Qed.

Lemma counter_wf_setitem (P : char → Prop) (m : dict char Z) (k : char) (v : Z) :
  P k → counter_wf P m → counter_wf P (PyDict.setitem m k v).
Proof.
  intros Hk [Hnd Hall]. split; [by apply keys_setitem_NoDup|].
  apply Forall_forall. intros k' [->|Hin]%keys_setitem_elem_of; [done|].
  rewrite Forall_forall in Hall. by apply Hall.
Qed.

Lemma counter_wf_foldl {B} (P : char → Prop) (key : B → char)
    (val : dict char Z → B → Z) (m : dict char Z) (l : list B) :
  Forall (λ b, P (key b)) l → counter_wf P m →
  counter_wf P (foldl (λ m b, PyDict.setitem m (key b) (val m b)) m l).
Proof.
  intros Hl. revert m. induction Hl as [|b l Hb _ IH]; intros m Hm; simpl;
    [done|].
  apply IH. by apply counter_wf_setitem.
Qed.

Lemma counter_wf_of_iterable (P : char → Prop) (iterable : list char) :
  Forall P iterable → counter_wf P (Counter.of_iterable iterable).
Proof.
  intros Hl. unfold Counter.of_iterable.
  apply (counter_wf_foldl P id (λ m elem, Counter.count m elem + 1));
    [done|].
  split; [apply NoDup_nil_2|constructor].
Qed.

Lemma counter_wf_keep_positive (P : char → Prop) (m : dict char Z) :
  counter_wf P m → counter_wf P (Counter.keep_positive m).
Proof.
  intros [Hnd Hall].
  assert (PyDict.keys (Counter.keep_positive m) `sublist_of` PyDict.keys m)
    as Hsub.
  { unfold PyDict.keys, Counter.keep_positive.
    apply fmap_sublist, sublist_filter. }
  split; [by eapply sublist_NoDup|].
  rewrite Forall_forall in Hall |- *. intros k Hk. apply Hall.
  by eapply elem_of_sublist.
Qed.

Lemma counter_wf_iadd (P : char → Prop) (self other : dict char Z) :
  counter_wf P self → counter_wf P other →
  counter_wf P (Counter.iadd self other).
Proof.
  intros Hself [_ Hother]. unfold Counter.iadd.
  apply counter_wf_keep_positive.
  apply (counter_wf_foldl P fst (λ m p, Counter.count m p.1 + p.2));
    [|done].
  unfold PyDict.items. unfold PyDict.keys in Hother.
  rewrite Forall_fmap in Hother. exact Hother.
Qed.

Lemma discard_password_false (password : str) :
  discard_password password = false →
  (length password ≤ 12)%nat ∧ Forall (λ c, c ≠ Batcher.PAD_CHAR) password.
Proof.
  unfold discard_password. intros [Hlen Hpad]%orb_false_iff.
  apply bool_decide_eq_false in Hlen, Hpad. split.
  - unfold Batcher.ENCODING_MAX_PASSWORD_LENGTH in Hlen. lia.
  - apply Forall_forall. intros c Hc ->. done.
Qed.

Lemma counter_wf_count_line (vocabulary vocabulary' : dict char Z) (s : str) :
  counter_wf (λ c, c ≠ Batcher.PAD_CHAR) vocabulary →
  count_line vocabulary s = Ok vocabulary' →
  counter_wf (λ c, c ≠ Batcher.PAD_CHAR) vocabulary'.
Proof.
  intros Hwf. unfold count_line.
  destruct (split Batcher.SEP (strip s)) as [|? [|x [|y [|??]]]]; try done.
  destruct (discard_password y) eqn:Hy; simpl; [by intros [= <-]|].
  destruct (discard_password x) eqn:Hx; simpl; [by intros [= <-]|].
  intros [= <-]. apply counter_wf_iadd; [done|].
  apply counter_wf_of_iterable, Forall_app.
  split; by apply discard_password_false.
Qed.

Lemma counter_wf_vocabulary (lines : list str) (vocabulary : dict char Z) :
  for_each count_line [] lines = Ok vocabulary →
  counter_wf (λ c, c ≠ Batcher.PAD_CHAR) vocabulary.
Proof.
  apply for_each_invariant.
  - intros s a s'. apply counter_wf_count_line.
  - split; [apply NoDup_nil_2|constructor].
Qed.

(** What the counter holds: the number of occurrences of every counted
    character. *)

Lemma count_setitem (m : dict char Z) (k c : char) (v : Z) :
  Counter.count (PyDict.setitem m k v) c
  = if decide (c = k) then v else Counter.count m c.
Proof. unfold Counter.count. rewrite get_setitem. by case_decide. Qed.

Lemma occurrences_cons (c e : char) (s : str) :
  occurrences c (e :: s)
  = (if decide (c = e) then 1 else 0) + occurrences c s.
Proof.
  unfold occurrences. destruct (decide (c = e)) as [->|Hne].
  - rewrite filter_cons_True by done. simpl. lia.
  - rewrite filter_cons_False by congruence. lia.
Qed.

Lemma occurrences_app (c : char) (s1 s2 : str) :
  occurrences c (s1 ++ s2) = occurrences c s1 + occurrences c s2.
Proof. unfold occurrences. rewrite filter_app, length_app. lia. Qed.

Lemma occurrences_nonneg (c : char) (s : str) : 0 ≤ occurrences c s.
Proof. unfold occurrences. lia. Qed.

Lemma count_of_iterable_from (m : dict char Z) (iterable : str) (c : char) :
  Counter.count
    (foldl (λ m elem, PyDict.setitem m elem (Counter.count m elem + 1)) m
       iterable) c
  = Counter.count m c + occurrences c iterable.
Proof.
  revert m. induction iterable as [|e l IH]; intros m; simpl.
  - unfold occurrences. simpl. lia.
  - rewrite IH, count_setitem, occurrences_cons.
    case_decide; subst; lia.
Qed.

Lemma count_of_iterable (iterable : str) (c : char) :
  Counter.count (Counter.of_iterable iterable) c = occurrences c iterable.
Proof. unfold Counter.of_iterable. by rewrite count_of_iterable_from. Qed.

Lemma count_cons (m : dict char Z) (k c : char) (v : Z) :
  Counter.count ((k, v) :: m) c
  = if decide (c = k) then v else Counter.count m c.
Proof. unfold Counter.count. simpl. by case_decide. Qed.

Lemma count_not_key (m : dict char Z) (c : char) :
  c ∉ PyDict.keys m → Counter.count m c = 0.
Proof. intros Hc%get_None. unfold Counter.count. by rewrite Hc. Qed.

Lemma count_iadd_from (m other : dict char Z) (c : char) :
  NoDup (PyDict.keys other) →
  Counter.count
    (foldl (λ m p, PyDict.setitem m p.1 (Counter.count m p.1 + p.2)) m other)
    c
  = Counter.count m c + Counter.count other c.
Proof.
  revert m. induction other as [|[k v] other IH]; intros m Hnd.
  - cbn [foldl]. rewrite (count_not_key [] c); [lia|apply not_elem_of_nil].
  - unfold PyDict.keys in Hnd. rewrite fmap_cons in Hnd.
    apply NoDup_cons in Hnd as [Hk Hnd].
    cbn [foldl fst snd]. rewrite IH, count_setitem, count_cons by done.
    case_decide; [|done]. subst.
    rewrite (count_not_key other k) by done. lia.
Qed.

Lemma count_keep_positive (m : dict char Z) (c : char) :
  NoDup (PyDict.keys m) →
  Counter.count (Counter.keep_positive m) c
  = if decide (0 < Counter.count m c) then Counter.count m c else 0.
Proof.
  unfold Counter.keep_positive.
  induction m as [|[k v] m IH]; intros Hnd.
  - rewrite filter_nil, (count_not_key [] c) by apply not_elem_of_nil.
    by case_decide.
  - unfold PyDict.keys in Hnd. rewrite fmap_cons in Hnd.
    apply NoDup_cons in Hnd as [Hk Hnd]. specialize (IH Hnd).
    rewrite (count_cons m).
    destruct (decide (0 < v)) as [Hv|Hv].
    + rewrite filter_cons_True by done. rewrite count_cons.
      destruct (decide (c = k)) as [->|Hne]; [by rewrite decide_True|done].
    + rewrite filter_cons_False by done.
      destruct (decide (c = k)) as [->|Hne]; [|done].
      rewrite decide_False by done.
      apply count_not_key. intros Hin. apply Hk.
      eapply elem_of_sublist; [exact Hin|].
      apply fmap_sublist, sublist_filter.
Qed.

Lemma count_iadd (self other : dict char Z) (c : char) :
  NoDup (PyDict.keys self) → NoDup (PyDict.keys other) →
  0 ≤ Counter.count self c → 0 ≤ Counter.count other c →
  Counter.count (Counter.iadd self other) c
  = Counter.count self c + Counter.count other c.
Proof.
  intros Hself Hother Hc Hc'. unfold Counter.iadd, PyDict.items.
  rewrite count_keep_positive.
  - rewrite count_iadd_from by done. case_decide; lia.
  - apply (counter_wf_foldl (λ _, True) fst
             (λ m p, Counter.count m p.1 + p.2)).
    + by apply Forall_forall.
    + split; [done|by apply Forall_forall].
Qed.

Lemma count_count_line (vocabulary vocabulary' : dict char Z) (s : str)
    (c : char) :
  NoDup (PyDict.keys vocabulary) → 0 ≤ Counter.count vocabulary c →
  count_line vocabulary s = Ok vocabulary' →
  Counter.count vocabulary' c
  = Counter.count vocabulary c + occurrences c (counted_chars [s]).
Proof.
  intros Hnd Hc. unfold count_line, counted_chars. simpl.
  rewrite app_nil_r.
  destruct (split Batcher.SEP (strip s)) as [|? [|x [|y [|??]]]]; try done.
  destruct (discard_password y || discard_password x).
  - intros [= <-]. unfold occurrences. simpl. lia.
  - intros [= <-]. rewrite count_iadd, count_of_iterable; try done.
    + apply (counter_wf_of_iterable (λ _, True)). by apply Forall_forall.
    + rewrite count_of_iterable. apply occurrences_nonneg.
Qed.

Lemma counted_chars_cons (s : str) (lines : list str) :
  counted_chars (s :: lines) = counted_chars [s] ++ counted_chars lines.
Proof. unfold counted_chars. simpl. by rewrite app_nil_r. Qed.

Lemma count_vocabulary_from (vocabulary0 vocabulary : dict char Z)
    (lines : list str) (c : char) :
  counter_wf (λ c, c ≠ Batcher.PAD_CHAR) vocabulary0 →
  0 ≤ Counter.count vocabulary0 c →
  for_each count_line vocabulary0 lines = Ok vocabulary →
  Counter.count vocabulary c
  = Counter.count vocabulary0 c + occurrences c (counted_chars lines).
Proof.
  revert vocabulary0. induction lines as [|s lines IH];
    intros vocabulary0 Hwf Hc; cbn [for_each].
  - intros [= <-]. unfold occurrences. simpl. lia.
  - destruct (count_line vocabulary0 s) as [e|vocabulary1] eqn:Hline;
      [done|].
    rewrite rbind_Ok. intros Hrest.
    pose proof (count_count_line _ _ _ c (proj1 Hwf) Hc Hline) as Hone.
    pose proof (counter_wf_count_line _ _ _ Hwf Hline) as Hwf1.
    pose proof (occurrences_nonneg c (counted_chars [s])) as Hpos.
    rewrite (IH vocabulary1 Hwf1) by (done || lia).
    rewrite Hone, (counted_chars_cons s lines), occurrences_app. lia.
Qed.

(** The counter [build_vocabulary] builds holds, for every character, its
    number of occurrences among the counted characters. *)
Lemma count_vocabulary (vocabulary : dict char Z) (lines : list str)
    (c : char) :
  for_each count_line [] lines = Ok vocabulary →
  Counter.count vocabulary c = occurrences c (counted_chars lines).
Proof.
  intros Hvoc.
  rewrite (count_vocabulary_from [] vocabulary lines c); try done.
  split; [apply NoDup_nil_2|constructor].
Qed.

(** Ties keep the order of first occurrence: of ["babc"] the two most
    common items are [b] with count 2 and [a], counted before [c]. *)
Example most_common_ties :
  Counter.most_common (Counter.of_iterable (pystr "babc")) 2
  = [(ord "b", 2); (ord "a", 1)].
Proof. by vm_compute. Qed.

Lemma most_common_length (m : dict char Z) (n : nat) :
  (length (Counter.most_common m n) ≤ n)%nat.
Proof. unfold Counter.most_common. rewrite length_take. lia. Qed.

Lemma most_common_keys_NoDup (m : dict char Z) (n : nat) :
  NoDup (PyDict.keys m) → NoDup (Counter.most_common m n).*1.
Proof.
  intros Hnd. unfold Counter.most_common, PyDict.items.
  rewrite fmap_take. eapply sublist_NoDup; [|apply sublist_take].
  by rewrite sorted_Permutation.
Qed.

Lemma most_common_elem_of (m : dict char Z) (n : nat) (p : char * Z) :
  p ∈ Counter.most_common m n → p ∈ m.
Proof.
  unfold Counter.most_common, PyDict.items. intros Hp.
  apply (elem_of_sorted (λ p q, q.2 <? p.2)).
  eapply elem_of_sublist; [exact Hp|apply sublist_take].
Qed.

(** The items [most_common] returns have counts at least as large as those
    of the items it leaves out. *)
Lemma most_common_top (m : dict char Z) (n : nat) (p q : char * Z) :
  p ∈ Counter.most_common m n → q ∈ m → q ∉ Counter.most_common m n →
  q.2 ≤ p.2.
Proof.
  unfold Counter.most_common, PyDict.items. intros Hp Hq Hnq.
  pose proof (sorted_desc m) as Hsorted.
  rewrite <-(take_drop n (sorted _ m)) in Hsorted.
  apply (StronglySorted_app_1_elem_of _ _ _ p q Hsorted); [done|].
  apply (elem_of_sorted (λ p q, q.2 <? p.2)) in Hq.
  rewrite <-(take_drop n (sorted _ m)) in Hq.
  apply elem_of_app in Hq as [Hq|Hq]; done.
Qed.

Lemma build_vocabulary_list_spec (lines : list str) (v : list char) :
  build_vocabulary_list lines = Ok v
  ↔ ∃ vocabulary,
      for_each count_line [] lines = Ok vocabulary
      ∧ v = sorted N.ltb (selected_chars vocabulary)
            ++ [Batcher.OOV_CHAR; Batcher.PAD_CHAR].
Proof.
  unfold build_vocabulary_list.
  destruct (for_each count_line [] lines) as [e|vocabulary] eqn:Hvoc.
  - rewrite rbind_Raise. split; [done|]. by intros (? & ? & _).
  - rewrite rbind_Ok.
    pose proof (counter_wf_vocabulary _ _ Hvoc) as [Hnd _].
    rewrite of_pairs_NoDup by by apply most_common_keys_NoDup.
    fold (selected_chars vocabulary). rewrite <-app_assoc. simpl.
    split.
    + intros [= <-]. by exists vocabulary.
    + intros (? & [= <-] & ->). done.
Qed.

Lemma write_spec (v : list char) :
  Batcher.write v
  = if decide (NoDup v)
    then Ok {| Batcher.token_indices := enumerate v;
               Batcher.indices_token := (λ p, (p.2, p.1)) <$> enumerate v |}
    else Raise AssertionError.
Proof.
  unfold Batcher.write. rewrite dict_enumerate.
  assert (((λ p : Z * char, (p.2, p.1)) <$> enumerate v).*1 = v) as Hkeys.
  { rewrite <-list_fmap_compose.
    rewrite (list_fmap_ext _ snd (enumerate v)) by (by intros i [??]).
    apply enumerate_snd. }
  pose proof (len_of_pairs_NoDup ((λ p : Z * char, (p.2, p.1)) <$> enumerate v))
    as Hlen.
  rewrite Hkeys, length_fmap in Hlen.
  unfold PyDict.len at 1. destruct (decide (NoDup v)) as [Hnd|Hnd].
  - rewrite decide_True by (symmetry; by apply Hlen).
    by rewrite dict_enumerate_swap.
  - rewrite decide_False; [done|]. intros Heq. apply Hnd, Hlen. done.
Qed.

Lemma write_Ok (v : list char) (files : Batcher.artifacts) :
  Batcher.write v = Ok files →
  NoDup v
  ∧ Batcher.token_indices files = enumerate v
  ∧ Batcher.indices_token files = (λ p, (p.2, p.1)) <$> enumerate v
  ∧ PyDict.values (Batcher.get_token_indices files) = v.
Proof.
  rewrite write_spec. case_decide; [|done]. intros [= <-].
  split_and!; try done. apply enumerate_snd.
Qed.

(** The selected characters are the most frequent ones: no character left
    out occurs more often among the counted characters than a selected
    one. *)
Lemma selected_chars_top (lines : list str) (vocabulary : dict char Z)
    (c c' : char) :
  for_each count_line [] lines = Ok vocabulary →
  c ∈ selected_chars vocabulary → c' ∉ selected_chars vocabulary →
  occurrences c' (counted_chars lines) ≤ occurrences c (counted_chars lines).
Proof.
  intros Hvoc Hc Hc'.
  pose proof (counter_wf_vocabulary _ _ Hvoc) as [Hnd _].
  rewrite <-!(count_vocabulary vocabulary) by done.
  apply list_elem_of_fmap in Hc as ([k v] & -> & Hp).
  pose proof (most_common_elem_of _ _ _ Hp) as Hin.
  assert (Counter.count vocabulary k = v) as Hv.
  { unfold Counter.count. by rewrite (proj2 (get_NoDup _ _ _ Hnd) Hin). }
  cbn [fst]. rewrite Hv.
  destruct (PyDict.get vocabulary c') as [v'|] eqn:Hget.
  - unfold Counter.count. rewrite Hget. simpl.
    apply get_Some_elem_of in Hget.
    apply (most_common_top vocabulary Batcher.ENCODING_MAX_SIZE_VOCAB
             (k, v) (c', v')); [done..|].
    intros Hsel. apply Hc', list_elem_of_fmap. by exists (c', v').
  - unfold Counter.count at 1. rewrite Hget. simpl.
    rewrite <-Hv, (count_vocabulary vocabulary lines) by done.
    apply occurrences_nonneg.
Qed.

(** [build_vocabulary] reaches [Batcher.write] on every corpus whose lines
    all have three fields. *)
Lemma build_vocabulary_list_total (lines : list str) :
  Forall (λ s, length (split Batcher.SEP (strip s)) = 3%nat) lines →
  ∃ v, build_vocabulary_list lines = Ok v.
Proof.
  intros Hlines.
  assert (∀ vocabulary0, ∃ vocabulary,
            for_each count_line vocabulary0 lines = Ok vocabulary) as Hall.
  { induction Hlines as [|s lines Hs _ IH]; intros vocabulary0.
    - by exists vocabulary0.
    - cbn [for_each]. unfold count_line at 1.
      destruct (split Batcher.SEP (strip s)) as [|? [|x [|y [|??]]]];
        try done.
      destruct (discard_password y || discard_password x);
        rewrite rbind_Ok; apply IH. }
  destruct (Hall []) as [vocabulary Hvoc].
  eexists. apply build_vocabulary_list_spec. by exists vocabulary.
Qed.

Lemma occurrences_pos (c : char) (s : str) : c ∈ s ↔ 0 < occurrences c s.
Proof.
  induction s as [|e s IH].
  - unfold occurrences. simpl. split; [by intros ?%elem_of_nil|lia].
  - rewrite occurrences_cons, elem_of_cons, IH.
    pose proof (occurrences_nonneg c s). case_decide; [|lia].
    split; [lia|by left].
Qed.

Lemma counter_wf_for_each (P : char → Prop) (vocabulary0 vocabulary : dict char Z)
    (lines : list str) :
  counter_wf P vocabulary0 → Forall P (counted_chars lines) →
  for_each count_line vocabulary0 lines = Ok vocabulary →
  counter_wf P vocabulary.
Proof.
  revert vocabulary0. induction lines as [|s lines IH];
    intros vocabulary0 Hwf Hall; cbn [for_each].
  - by intros [= <-].
  - rewrite (counted_chars_cons s lines) in Hall.
    apply Forall_app in Hall as [Hs Hall].
    destruct (count_line vocabulary0 s) as [e|vocabulary1] eqn:Hline; [done|].
    rewrite rbind_Ok. apply IH; [|done].
    unfold count_line in Hline. unfold counted_chars in Hs. simpl in Hs.
    rewrite app_nil_r in Hs.
    destruct (split Batcher.SEP (strip s)) as [|id [|x [|y [|??]]]];
      try done.
    destruct (discard_password y || discard_password x);
      injection Hline as <-; [done|].
    apply counter_wf_iadd; [done|]. by apply counter_wf_of_iterable.
Qed.

(** The keys of the counter are exactly the counted characters. *)
Lemma vocabulary_keys (lines : list str) (vocabulary : dict char Z) (c : char) :
  for_each count_line [] lines = Ok vocabulary →
  c ∈ PyDict.keys vocabulary ↔ c ∈ counted_chars lines.
Proof.
  intros Hvoc. split.
  - intros Hc.
    assert (counter_wf (λ c, c ∈ counted_chars lines) vocabulary) as [_ Hall].
    { apply (counter_wf_for_each _ [] vocabulary lines); [|by apply Forall_forall|done].
      split; [apply NoDup_nil_2|constructor]. }
    rewrite Forall_forall in Hall. by apply Hall.
  - intros Hc%occurrences_pos.
    rewrite <-(count_vocabulary vocabulary) in Hc by done.
    destruct (decide (c ∈ PyDict.keys vocabulary)) as [|Hnin]; [done|].
    rewrite count_not_key in Hc by done. lia.
Qed.

Lemma length_selected_chars (vocabulary : dict char Z) :
  length (selected_chars vocabulary)
  = (Batcher.ENCODING_MAX_SIZE_VOCAB `min` length vocabulary)%nat.
Proof.
  unfold selected_chars, Counter.most_common, PyDict.items.
  by rewrite length_fmap, length_take, length_sorted.
Qed.

Lemma selected_chars_all (vocabulary : dict char Z) :
  (length vocabulary ≤ Batcher.ENCODING_MAX_SIZE_VOCAB)%nat →
  selected_chars vocabulary ≡ₚ PyDict.keys vocabulary.
Proof.
  intros Hlen. unfold selected_chars, Counter.most_common, PyDict.items.
  rewrite take_ge by (by rewrite length_sorted).
  unfold PyDict.keys. by rewrite sorted_Permutation.
Qed.

Lemma keys_counted_Permutation (lines : list str) (vocabulary : dict char Z) :
  for_each count_line [] lines = Ok vocabulary →
  PyDict.keys vocabulary ≡ₚ remove_dups (counted_chars lines).
Proof.
  intros Hvoc. pose proof (counter_wf_vocabulary _ _ Hvoc) as [Hnd _].
  apply NoDup_Permutation; [done|apply NoDup_remove_dups|].
  intros c. rewrite elem_of_remove_dups. by apply vocabulary_keys.
Qed.

(** C3: the list [build_vocabulary] persists has at most
    [ENCODING_MAX_SIZE_VOCAB + 2 = 82] entries; it ends with the OOV
    character followed by the pad character; the entries before them are the
    selected characters, in strictly ascending order of code point.  The
    selected characters are the top-frequency ones: they are counted
    characters, there are min(80, number of distinct counted characters) of
    them, so all the counted characters when these are at most 80, and no
    character left out occurs more often among the counted characters than
    a selected one. *)
Theorem build_vocabulary_shape (lines : list str) (files : Batcher.artifacts) :
  build_vocabulary lines = Ok files →
  let v := PyDict.values (Batcher.get_token_indices files) in
  (length v ≤ Batcher.ENCODING_MAX_SIZE_VOCAB + 2)%nat
  ∧ (Batcher.ENCODING_MAX_SIZE_VOCAB + 2 = 82)%nat
  ∧ ∃ vocabulary selected,
      for_each count_line [] lines = Ok vocabulary
      ∧ build_vocabulary_list lines = Ok v
      ∧ v = selected ++ [Batcher.OOV_CHAR; Batcher.PAD_CHAR]
      ∧ selected ≡ₚ selected_chars vocabulary
      ∧ StronglySorted N.lt selected
      ∧ (∀ c c', c ∈ selected → c' ∉ selected →
           occurrences c' (counted_chars lines)
           ≤ occurrences c (counted_chars lines))
      ∧ length selected
        = (Batcher.ENCODING_MAX_SIZE_VOCAB
           `min` length (remove_dups (counted_chars lines)))%nat
      ∧ (∀ c, c ∈ selected → c ∈ counted_chars lines)
      ∧ ((length (remove_dups (counted_chars lines))
          ≤ Batcher.ENCODING_MAX_SIZE_VOCAB)%nat →
         ∀ c, c ∈ selected ↔ c ∈ counted_chars lines).
Proof.
  intros Hbuild v. unfold build_vocabulary in Hbuild.
  destruct (build_vocabulary_list lines) as [e|v'] eqn:Hlist; [done|].
  rewrite rbind_Ok in Hbuild. apply write_Ok in Hbuild as (_ & _ & _ & Hv).
  fold v in Hv. subst v'.
  pose proof Hlist as (vocabulary & Hvoc & Heq)%build_vocabulary_list_spec.
  pose proof (counter_wf_vocabulary _ _ Hvoc) as [Hnd _].
  pose proof (keys_counted_Permutation lines vocabulary Hvoc) as Hkeys.
  assert (length vocabulary = length (remove_dups (counted_chars lines)))
    as Hdistinct.
  { rewrite <-Hkeys. unfold PyDict.keys. by rewrite length_fmap. }
  assert (∀ c, c ∈ selected_chars vocabulary → c ∈ counted_chars lines)
    as Hcounted.
  { intros c (p & -> & Hp)%list_elem_of_fmap.
    apply most_common_elem_of in Hp.
    apply (vocabulary_keys lines vocabulary _ Hvoc).
    unfold PyDict.keys. apply list_elem_of_fmap. by exists p. }
  split_and!; [|done|].
  - rewrite Heq, length_app, length_sorted. unfold selected_chars.
    rewrite length_fmap. simpl.
    pose proof (most_common_length vocabulary Batcher.ENCODING_MAX_SIZE_VOCAB).
    unfold Batcher.ENCODING_MAX_SIZE_VOCAB in *. lia.
  - exists vocabulary, (sorted N.ltb (selected_chars vocabulary)).
    split_and!; [done..|apply sorted_Permutation| | | | |].
    + apply sorted_lt. by apply most_common_keys_NoDup.
    + intros c c'. rewrite !elem_of_sorted. by apply selected_chars_top.
    + by rewrite length_sorted, length_selected_chars, Hdistinct.
    + intros c. rewrite elem_of_sorted. apply Hcounted.
    + intros Hsmall c. rewrite elem_of_sorted.
      rewrite selected_chars_all by (by rewrite Hdistinct).
      by apply vocabulary_keys.
Qed.

Lemma build_vocabulary_shape_witness :
  ∃ files,
    build_vocabulary toy_corpus = Ok files
    ∧ length (PyDict.values (Batcher.get_token_indices files)) = 8%nat.
Proof.
  destruct (build_vocabulary toy_corpus) as [e|files] eqn:Hbuild;
    [by vm_compute in Hbuild|].
  exists files. split; [done|].
  destruct (build_vocabulary_shape toy_corpus files Hbuild)
    as (_ & _ & voc & sel & _ & _ & -> & _ & _ & _ & Hlen & _).
  rewrite length_app, Hlen. by vm_compute.
Defined.

(** The list of [build_vocabulary] has a duplicate exactly when ['？'] is
    one of the selected characters; the pad character is never selected. *)
Lemma build_vocabulary_list_NoDup (lines : list str) (vocabulary : dict char Z)
    (v : list char) :
  for_each count_line [] lines = Ok vocabulary →
  build_vocabulary_list lines = Ok v →
  (Batcher.PAD_CHAR ∉ selected_chars vocabulary)
  ∧ (NoDup v ↔ Batcher.OOV_CHAR ∉ selected_chars vocabulary).
Proof.
  intros Hvoc (voc' & Hvoc' & ->)%build_vocabulary_list_spec.
  assert (voc' = vocabulary) as -> by congruence.
  pose proof (counter_wf_vocabulary _ _ Hvoc) as [Hnd Hpad].
  assert (Batcher.PAD_CHAR ∉ selected_chars vocabulary) as Hnpad.
  { intros [p [Hp1 Hp]]%list_elem_of_fmap.
    apply most_common_elem_of in Hp.
    rewrite Forall_forall in Hpad. apply (Hpad p.1); [|done].
    unfold PyDict.keys. apply list_elem_of_fmap. by exists p. }
  split; [done|].
  rewrite NoDup_app, NoDup_sorted.
  setoid_rewrite elem_of_sorted. split.
  - intros (_ & Hdisj & _) Hin. apply (Hdisj _ Hin). left.
  - intros Hoov. split_and!.
    + by apply most_common_keys_NoDup.
    + intros c Hc [->|[->|[]%elem_of_nil]%elem_of_cons]%elem_of_cons; done.
    + apply NoDup_cons. split; [|apply NoDup_singleton].
      by intros ?%list_elem_of_singleton.
Qed.

(** C6 fails on a corpus in which ['？'] occurs: the character is selected
    like any other, the OOV sentinel is appended after it, and the
    assertion of [Batcher.write] fails on the list. *)
Theorem build_vocabulary_oov_collision :
  build_vocabulary_list oov_corpus
  = Ok (pystr "a" ++ [Batcher.OOV_CHAR; Batcher.OOV_CHAR; Batcher.PAD_CHAR])
  ∧ ¬ NoDup (pystr "a"
             ++ [Batcher.OOV_CHAR; Batcher.OOV_CHAR; Batcher.PAD_CHAR])
  ∧ build_vocabulary oov_corpus = Raise AssertionError.
Proof.
  split_and!; [by vm_compute| |by vm_compute].
  intros Hnd. apply NoDup_cons in Hnd as [_ Hnd].
  apply NoDup_cons in Hnd as [Hnin _]. apply Hnin. left.
Qed.

(** * The table rebuilt from the persisted mapping *)

(** On the toy corpus the persisted mapping gives the pad character the
    last index, 7, and the table rebuilt from the mapping gives it index 0. *)
Lemma ctable_index_parity_counterexample :
  ∃ files,
    build_vocabulary toy_corpus = Ok files
    ∧ PyDict.get
        (CharacterTable.char_indices (Batcher.get_chars_and_ctable files).2)
        Batcher.PAD_CHAR = Some 0
    ∧ PyDict.get (Batcher.get_indices_token files) Batcher.PAD_CHAR = Some 7.
Proof. eexists. split_and!; by vm_compute. Qed.

(** When a table built from distinct characters [v] gives every character
    its position in [v], the list [v] is the sorted list of the table. *)
Lemma index_parity_sorted (v : list char) :
  NoDup v →
  (∀ c, PyDict.get (CharacterTable.char_indices (CharacterTable.init v)) c
        = PyDict.get ((λ p, (p.2, p.1)) <$> enumerate v) c) →
  StronglySorted N.lt v.
Proof.
  intros Hnd Hget.
  assert (CharacterTable.chars (CharacterTable.init v) = v) as <-;
    [|apply chars_sorted].
  apply (list_eq_same_length _ _ (length v)); [done| |].
  - rewrite chars_init, length_sorted. unfold set_of.
    apply Permutation_length, NoDup_Permutation;
      [apply NoDup_remove_dups|done|apply elem_of_remove_dups].
  - intros i c c' Hi Hc Hc'.
    assert (PyDict.get ((λ p, (p.2, p.1)) <$> enumerate v) c'
            = Some (Z.of_nat i)) as Hg.
    { apply get_enumerate_swap; [done|]. by rewrite Nat2Z.id; split; [lia|]. }
    rewrite <-Hget in Hg. apply char_indices_get in Hg as [_ Hg].
    rewrite Nat2Z.id in Hg. congruence.
Qed.

Lemma get_chars_and_ctable_write (v : list char) (files : Batcher.artifacts) :
  Batcher.write v = Ok files →
  Batcher.get_chars_and_ctable files = (v, CharacterTable.init v).
Proof.
  intros (_ & _ & _ & Hvalues)%write_Ok.
  unfold Batcher.get_chars_and_ctable. by rewrite Hvalues.
Qed.

(** C4, amended: for a list persisted by [Batcher.write], the table that
    [get_chars_and_ctable] rebuilds has the characters of the list, and it
    assigns every character the index the persisted mapping records for it
    if and only if the list is in strictly ascending order of code point. *)
Theorem ctable_index_parity (v : list char) (files : Batcher.artifacts) :
  Batcher.write v = Ok files →
  let ctable := (Batcher.get_chars_and_ctable files).2 in
  (∀ c, c ∈ CharacterTable.chars ctable ↔ c ∈ v)
  ∧ ((∀ c, PyDict.get (CharacterTable.char_indices ctable) c
           = PyDict.get (Batcher.get_indices_token files) c)
     ↔ StronglySorted N.lt v).
Proof.
  intros Hwrite ctable. unfold ctable.
  rewrite (get_chars_and_ctable_write _ _ Hwrite). cbn [snd].
  apply write_Ok in Hwrite as (Hnd & _ & Hit & _).
  unfold Batcher.get_indices_token. rewrite Hit.
  split; [apply elem_of_chars|]. split.
  - by apply index_parity_sorted.
  - intros Hsorted c.
    rewrite char_indices_init, chars_init.
    by rewrite (proj2 (sorted_set_id v) Hsorted).
Qed.

Lemma ctable_index_parity_witness :
  ∃ files,
    Batcher.write (pystr "abc") = Ok files
    ∧ ∀ c, PyDict.get
             (CharacterTable.char_indices (Batcher.get_chars_and_ctable files).2)
             c
           = PyDict.get (Batcher.get_indices_token files) c.
Proof.
  destruct (Batcher.write (pystr "abc")) as [e|files] eqn:Hwrite;
    [by vm_compute in Hwrite|].
  exists files. split; [done|].
  apply (ctable_index_parity _ _ Hwrite). by_compute.
Defined.

(** The lists [build_vocabulary] persists end in ['？'], [' '] and are never
    ascending: for them the two index assignments always differ. *)
Lemma build_vocabulary_index_parity (lines : list str)
    (files : Batcher.artifacts) :
  build_vocabulary lines = Ok files →
  ¬ ∀ c, PyDict.get
           (CharacterTable.char_indices (Batcher.get_chars_and_ctable files).2)
           c
         = PyDict.get (Batcher.get_indices_token files) c.
Proof.
  unfold build_vocabulary. intros Hbuild Hget.
  destruct (build_vocabulary_list lines) as [e|v] eqn:Hlist; [done|].
  rewrite rbind_Ok in Hbuild.
  apply build_vocabulary_list_spec in Hlist as (vocabulary & _ & Hv).
  rewrite (get_chars_and_ctable_write _ _ Hbuild) in Hget. cbn [snd] in Hget.
  apply write_Ok in Hbuild as (Hnd & _ & Hit & _).
  unfold Batcher.get_indices_token in Hget. rewrite Hit in Hget.
  apply index_parity_sorted in Hget; [|done]. rewrite Hv in Hget.
  apply StronglySorted_app_1_r in Hget.
  apply StronglySorted_cons in Hget as [Hlt _].
  apply Forall_cons in Hlt as [Hlt _]. by vm_compute in Hlt.
Qed.

(** * The lazy data loader *)

Section loader_facts.
Variable stream_from_file : str → char → Stream.t.
Variable filename : str.
Let pairs := Stream.pending (stream_from_file filename Batcher.SEP).
Let n := length pairs.

Lemma at_position_init :
  at_position filename pairs 0 (LazyDataLoader.init stream_from_file filename).
Proof. split_and!; [done|done|lia]. Qed.

(** One call of [next] on a non-empty corpus returns within two nested
    calls: it yields the pending pair, or restarts the pass once and yields
    its first pair. *)
Lemma next_at_position (fuel p : nat) (self : LazyDataLoader.t) :
  (0 < n)%nat → (2 ≤ fuel)%nat → at_position filename pairs p self →
  ∃ item self',
    LazyDataLoader.next stream_from_file fuel self = Some (item, self')
    ∧ pairs !! (p mod n)%nat = Some item
    ∧ at_position filename pairs (S (p mod n)%nat) self'.
Proof.
  intros Hn Hfuel (Hfile & Hpending & Hp).
  destruct fuel as [|[|fuel]]; [lia..|].
  destruct (decide (p < n)%nat) as [Hlt|Hge].
  - destruct (lookup_lt_is_Some_2 pairs p Hlt) as [item Hitem].
    exists item. eexists. cbn [LazyDataLoader.next]. unfold Stream.next.
    rewrite Hpending, (drop_S _ _ _ Hitem).
    rewrite Nat.mod_small by done.
    split_and!; [done|done|].
    split_and!; [done|done|unfold n in *; lia].
  - assert (p = n) as -> by lia.
    destruct pairs as [|item rest] eqn:Hpairs; [simpl in n; lia|].
    exists item. eexists. cbn [LazyDataLoader.next]. unfold Stream.next.
    rewrite Hpending. unfold n at 1. rewrite drop_all.
    unfold LazyDataLoader.init_stream. cbn [LazyDataLoader.training_filename
      LazyDataLoader.stream]. rewrite Hfile. fold pairs. rewrite Hpairs.
    rewrite Nat.Div0.mod_same.
    split_and!; [done|done|].
    split_and!; [done|done|simpl; lia].
Qed.

Lemma next_n_at_position (fuel k p : nat) (self : LazyDataLoader.t) :
  (0 < n)%nat → (2 ≤ fuel)%nat → at_position filename pairs p self →
  ∃ outputs self',
    LazyDataLoader.next_n stream_from_file fuel k self = Some (outputs, self')
    ∧ length outputs = k
    ∧ ∀ i, (i < k)%nat → outputs !! i = pairs !! ((p + i) mod n)%nat.
Proof.
  intros Hn Hfuel. revert p self. induction k as [|k IH]; intros p self Hat.
  - exists [], self. split_and!; [done..|]. intros i Hi. lia.
  - destruct (next_at_position fuel p self Hn Hfuel Hat)
      as (item & self1 & Hnext & Hitem & Hat1).
    destruct (IH _ _ Hat1) as (outputs & self2 & Hrest & Hlen & Hout).
    exists (item :: outputs), self2. cbn [LazyDataLoader.next_n].
    rewrite Hnext, Hrest. split_and!; [done|simpl; lia|].
    intros [|i] Hi; simpl.
    + by rewrite Nat.add_0_r.
    + rewrite Hout by lia. f_equal.
      replace (S (p mod n) + i)%nat with (p mod n + S i)%nat by lia.
      by rewrite Nat.Div0.add_mod_idemp_l.
Qed.
End loader_facts.

(** C5: on a corpus whose pass yields [n > 0] pairs, any number [k] of calls
    of [next] on a new loader all return, each within two nested calls; call
    number [i] (from 0) returns pair [i mod n] of the pass, so the pairs
    repeat cyclically and call [n + 1] returns the pair of call 1. *)
Theorem next_never_raises (stream_from_file : str → char → Stream.t)
    (filename : str) (fuel k : nat) :
  let pairs := Stream.pending (stream_from_file filename Batcher.SEP) in
  let n := length pairs in
  (0 < n)%nat → (2 ≤ fuel)%nat →
  ∃ outputs self',
    LazyDataLoader.next_n stream_from_file fuel k
      (LazyDataLoader.init stream_from_file filename)
    = Some (outputs, self')
    ∧ length outputs = k
    ∧ (∀ i, (i < k)%nat → outputs !! i = pairs !! (i mod n)%nat)
    ∧ ((n < k)%nat → outputs !! n = outputs !! 0%nat).
Proof.
  intros pairs n Hn Hfuel.
  destruct (next_n_at_position stream_from_file filename fuel k 0
              (LazyDataLoader.init stream_from_file filename) Hn Hfuel
              (at_position_init stream_from_file filename))
    as (outputs & self' & Hnext & Hlen & Hout).
  exists outputs, self'. split_and!; [done..|].
  intros Hk. rewrite !Hout by lia. simpl. fold pairs n.
  by rewrite Nat.Div0.mod_same, Nat.Div0.mod_0_l.
Qed.

Lemma next_never_raises_witness :
  ∃ outputs self',
    LazyDataLoader.next_n toy_reader 2 6 (LazyDataLoader.init toy_reader [])
    = Some (outputs, self')
    ∧ length outputs = 6%nat
    ∧ outputs !! 3%nat = outputs !! 0%nat.
Proof.
  destruct (next_never_raises toy_reader [] 2 6)
    as (outputs & self' & Hnext & Hlen & _ & Hcycle).
  - vm_compute. lia.
  - lia.
  - exists outputs, self'. split_and!; [done..|].
    apply Hcycle. vm_compute. lia.
Defined.

(** On an empty corpus [next] never returns, whatever the depth allowed. *)
Lemma next_empty_corpus (stream_from_file : str → char → Stream.t)
    (fuel : nat) (self : LazyDataLoader.t) :
  Stream.pending (LazyDataLoader.stream self) = [] →
  Stream.pending
    (stream_from_file (LazyDataLoader.training_filename self) Batcher.SEP)
  = [] →
  LazyDataLoader.next stream_from_file fuel self = None.
Proof.
  revert self. induction fuel as [|fuel IH]; intros self Hnow Hfresh; [done|].
  cbn [LazyDataLoader.next]. unfold Stream.next. rewrite Hnow.
  apply IH; done.
Qed.

Lemma statistics_loop (l : list (str * str)) (a b c : nat) :
  foldl (λ '(max_len_value_x, max_len_value_y, num_lines) '(x, y),
           (max_len_value_x `max` length x,
            max_len_value_y `max` length y,
            num_lines + 1)%nat)
    (a, b, c) l
  = (a `max` max_len l.*1, b `max` max_len l.*2,
     c + length l)%nat.
Proof.
  unfold max_len.
  revert a b c. induction l as [|[x y] l IH]; intros a b c; csimpl.
  - f_equal; [f_equal|]; lia.
  - rewrite IH. f_equal; [f_equal|]; lia.
Qed.

(** C7: [statistics] re-initialises the stream, whatever state it was in,
    and consumes one full pass; when the pass ends normally it returns the
    largest length of an [x], the largest length of a [y] and the number of
    pairs, over all the pairs of the pass.  On the toy corpus it returns
    (3, 3, 3). *)
Theorem statistics_spec (stream_from_file : str → char → Stream.t)
    (self : LazyDataLoader.t) :
  let fresh :=
    stream_from_file (LazyDataLoader.training_filename self) Batcher.SEP in
  (Stream.ending fresh = StopIteration →
   LazyDataLoader.statistics stream_from_file self
   = (Ok (max_len (Stream.pending fresh).*1,
          max_len (Stream.pending fresh).*2,
          length (Stream.pending fresh)),
      {| LazyDataLoader.training_filename :=
           LazyDataLoader.training_filename self;
         LazyDataLoader.stream := Stream.finished |}))
  ∧ (LazyDataLoader.statistics toy_reader (LazyDataLoader.init toy_reader [])).1
    = Ok (3, 3, 3)%nat.
Proof.
  intros fresh. split; [|done].
  intros Hend. unfold LazyDataLoader.statistics, Stream.for_in.
  unfold LazyDataLoader.init_stream. fold fresh.
  rewrite Hend, decide_True by done.
  by rewrite statistics_loop.
Qed.

Lemma statistics_spec_witness :
  (LazyDataLoader.statistics toy_reader
     {| LazyDataLoader.training_filename := [];
        LazyDataLoader.stream := Stream.finished |}).1
  = Ok (3, 3, 3)%nat.
Proof.
  destruct (statistics_spec toy_reader
              {| LazyDataLoader.training_filename := [];
                 LazyDataLoader.stream := Stream.finished |}) as [Hgen _].
  rewrite Hgen; [by vm_compute|by vm_compute].
Defined.

(** * Further properties of the character table *)

Lemma StronglySorted_lookup_lt (l : list char) (i j : nat) (x y : char) :
  StronglySorted N.lt l → l !! i = Some x → l !! j = Some y → (i < j)%nat →
  (x < y)%N.
Proof.
  intros Hl. revert i j. induction Hl as [|c l Hl IH Hc]; intros i j Hi Hj Hij.
  - by rewrite lookup_nil in Hi.
  - destruct j as [|j]; [lia|]. simpl in Hj.
    destruct i as [|i]; simpl in Hi.
    + injection Hi as ->. rewrite Forall_forall in Hc. apply Hc.
      by eapply list_elem_of_lookup_2.
    + apply (IH i j); [done..|lia].
Qed.

(** X1: the table depends only on the set of characters it is built from:
    neither their order nor their repetitions matter. *)
Theorem table_set_insensitive (chars1 chars2 : str) :
  (∀ c, c ∈ chars1 ↔ c ∈ chars2) →
  CharacterTable.init chars1 = CharacterTable.init chars2.
Proof.
  intros Hsame.
  assert (sorted N.ltb (set_of chars1) = sorted N.ltb (set_of chars2)) as Heq.
  { apply sorted_unique. unfold set_of.
    apply NoDup_Permutation; [apply NoDup_remove_dups..|].
    intros c. by rewrite !elem_of_remove_dups. }
  unfold CharacterTable.init. by rewrite Heq.
Qed.

Lemma table_set_insensitive_witness :
  CharacterTable.init (pystr "abca") = CharacterTable.init (pystr "cba").
Proof.
  apply table_set_insensitive. intros c.
  rewrite !list_elem_of_In. vm_compute. tauto.
Defined.

(** X2: the two dictionaries of a table are inverse of each other, the
    indices are exactly 0 .. len(chars) - 1, and the characters with an index
    are exactly those the table was built from. *)
Theorem table_indices_inverse (chars : str) (c : char) (i : Z) :
  let self := CharacterTable.init chars in
  (PyDict.get (CharacterTable.char_indices self) c = Some i
   ↔ PyDict.get (CharacterTable.indices_char self) i = Some c)
  ∧ (is_Some (PyDict.get (CharacterTable.indices_char self) i)
     ↔ 0 ≤ i < Z.of_nat (length (CharacterTable.chars self)))
  ∧ (is_Some (PyDict.get (CharacterTable.char_indices self) c) ↔ c ∈ chars).
Proof.
  intros self. unfold self. split_and!.
  - rewrite (char_indices_get chars), (indices_char_get chars).
    case_decide; [tauto|]. split; [tauto|done].
  - rewrite (indices_char_get chars). case_decide.
    + rewrite lookup_lt_is_Some. lia.
    + split; [by intros [??]|lia].
  - split.
    + intros [z Hz]. apply (char_indices_get chars) in Hz as [_ Hz].
      apply (elem_of_chars chars). by eapply list_elem_of_lookup_2.
    + intros Hc. destruct (char_indices_elem_of chars c Hc) as (j & Hj & _).
      by exists (Z.of_nat j).
Qed.

(** X3: the index assignment follows the order of the code points: of two
    characters of the table the one with the smaller code point has the
    smaller index. *)
Theorem table_index_monotone (chars : str) (c1 c2 : char) (i1 i2 : Z) :
  let self := CharacterTable.init chars in
  PyDict.get (CharacterTable.char_indices self) c1 = Some i1 →
  PyDict.get (CharacterTable.char_indices self) c2 = Some i2 →
  ((c1 < c2)%N ↔ i1 < i2).
Proof.
  intros self. unfold self.
  intros [Hi1 Hc1]%char_indices_get [Hi2 Hc2]%char_indices_get.
  pose proof (chars_sorted chars) as Hsorted.
  assert (∀ a b ia ib,
    CharacterTable.chars (CharacterTable.init chars) !! Z.to_nat ia = Some a →
    CharacterTable.chars (CharacterTable.init chars) !! Z.to_nat ib = Some b →
    0 ≤ ia → 0 ≤ ib → ia < ib → (a < b)%N) as Hmono.
  { intros a b ia ib Ha Hb ???.
    apply (StronglySorted_lookup_lt _ (Z.to_nat ia) (Z.to_nat ib) a b Hsorted);
      [done..|lia]. }
  split; [|by apply Hmono].
  intros Hlt. destruct (Z.lt_trichotomy i1 i2) as [?|[->|Hgt]]; [done|..].
  - rewrite Hc1 in Hc2. injection Hc2 as ->. lia.
  - pose proof (Hmono c2 c1 i2 i1 Hc2 Hc1 Hi2 Hi1 Hgt). lia.
Qed.

Lemma table_index_monotone_witness :
  (Batcher.PAD_CHAR < ord "a")%N ↔ 0 < 1.
Proof.
  apply (table_index_monotone abc_chars); by vm_compute.
Defined.

(** X4: a table encodes every text for every number of rows exactly when it
    holds both sentinel characters. *)
Theorem encode_total_iff_sentinels (chars : str) :
  (∀ text num_rows,
     ∃ x, CharacterTable.encode (CharacterTable.init chars) text num_rows
          = Ok x)
  ↔ Batcher.OOV_CHAR ∈ chars ∧ Batcher.PAD_CHAR ∈ chars.
Proof.
  split.
  - intros Htotal.
    assert (∀ text, row_char (CharacterTable.init chars) text 0 ∈ chars)
      as Hrow.
    { intros text. destruct (Htotal text 1%nat) as [x Hx].
      rewrite encode_spec in Hx. case_decide as Hall; [|done].
      rewrite Forall_forall in Hall. apply Hall. by left. }
    split.
    + destruct (decide (Batcher.OOV_CHAR ∈ chars)) as [|Hnin]; [done|].
      specialize (Hrow [Batcher.OOV_CHAR]). unfold row_char in Hrow.
      cbn [lookup list_lookup] in Hrow.
      by rewrite bool_decide_eq_false_2 in Hrow by by rewrite elem_of_chars.
    + apply (Hrow []).
  - intros [HOOV HPAD] text num_rows. eexists. by apply encode_ok.
Qed.


(** * Further properties of decode *)

(** [argmax_from] returns the first position of the largest entry: [pre]
    is the part of the row already seen, whose first largest entry is [best]
    at [best_i]. *)
Lemma argmax_from_spec (l pre : list Z) (best_i : nat) (best : Z) :
  pre !! best_i = Some best →
  Forall (λ v, v ≤ best) pre →
  (∀ k v, (k < best_i)%nat → pre !! k = Some v → v < best) →
  ∃ m,
    (pre ++ l) !! np.argmax_from best_i best (length pre) l = Some m
    ∧ Forall (λ v, v ≤ m) (pre ++ l)
    ∧ ∀ k v, (k < np.argmax_from best_i best (length pre) l)%nat →
        (pre ++ l) !! k = Some v → v < m.
Proof.
  revert pre best_i best.
  induction l as [|v l IH]; intros pre best_i best Hbest Hle Hfirst.
  - exists best. rewrite app_nil_r. by cbn [np.argmax_from].
  - cbn [np.argmax_from]. rewrite (cons_middle v pre l), app_assoc.
    replace (S (length pre)) with (length (pre ++ [v]))
      by (rewrite length_app; simpl; lia).
    destruct (Z.ltb_spec best v) as [Hlt|Hge].
    + apply IH.
      * by rewrite lookup_app_r, Nat.sub_diag by lia.
      * apply Forall_app. split; [|by repeat constructor].
        eapply Forall_impl; [exact Hle|]. intros w Hw. simpl in Hw. lia.
      * intros k w Hk Hw. rewrite lookup_app_l in Hw by done.
        rewrite Forall_forall in Hle.
        apply list_elem_of_lookup_2, Hle in Hw. lia.
    + pose proof (lookup_lt_Some _ _ _ Hbest) as Hbi.
      apply IH.
      * by rewrite lookup_app_l.
      * apply Forall_app. split; [done|by repeat constructor].
      * intros k w Hk Hw. rewrite lookup_app_l in Hw by lia.
        by apply (Hfirst k).
Qed.

Lemma argmax_spec (row : list Z) :
  row ≠ [] →
  ∃ (j : nat) (m : Z),
    np.argmax row = Ok (Z.of_nat j)
    ∧ row !! j = Some m
    ∧ Forall (λ v, v ≤ m) row
    ∧ ∀ k v, (k < j)%nat → row !! k = Some v → v < m.
Proof.
  destruct row as [|v l]; [done|]. intros _.
  destruct (argmax_from_spec l [v] 0 v) as (m & Hm & Hle & Hfirst).
  - done.
  - by repeat constructor.
  - intros k w Hk. lia.
  - exists (np.argmax_from 0 v 1 l), m. by split_and!.
Qed.

(** X6: [decode] with [calc_argmax] never fails on a two-dimensional array
    with at least one row whose rows all have the same width, at least 1 and
    at most the width of the table: it returns one character per row, the
    character whose index is the first position of the largest entry of the
    row. *)
Theorem decode_argmax_total (chars : str) (x : list (list Z)) (width : nat) :
  let self := CharacterTable.init chars in
  x ≠ [] →
  (0 < width ≤ length (CharacterTable.chars self))%nat →
  Forall (λ row, length row = width) x →
  ∃ s,
    CharacterTable.decode self (np.Arr2 x) true = Ok s
    ∧ Forall2 (λ row c,
        ∃ (j : nat) (m : Z),
          CharacterTable.chars self !! j = Some c
          ∧ row !! j = Some m
          ∧ Forall (λ v, v ≤ m) row
          ∧ ∀ k v, (k < j)%nat → row !! k = Some v → v < m) x s.
Proof.
  intros self. unfold self, CharacterTable.decode, np.argmax_last.
  intros _ Hwidth.
  induction 1 as [|row x Hrow _ IH].
  - exists []. split; [done|constructor].
  - destruct IH as (s & Hs & Hall).
    destruct (argmax_spec row) as (j & m & Hj & Hm & Hle & Hfirst).
    { intros ->. simpl in Hrow. lia. }
    destruct (getitem_indices_char_in chars (Z.of_nat j)) as (c & Hc & Hcj).
    { apply lookup_lt_Some in Hm. lia. }
    rewrite Nat2Z.id in Hcj.
    cbn [map_result]. rewrite Hj, rbind_Ok.
    destruct (map_result np.argmax x) as [e|ix]; [done|].
    rewrite !rbind_Ok in *. cbn [map_result]. rewrite Hc, Hs, !rbind_Ok.
    exists (c :: s). split; [done|].
    constructor; [|done]. exists j, m. by split_and!.
Qed.

Lemma decode_argmax_total_witness :
  ∃ s,
    CharacterTable.decode (CharacterTable.init abc_chars)
      (np.Arr2 [[0; 3; 2; 3; 1]; [5; 5; 0; 1; 2]]) true = Ok s
    ∧ length s = 2%nat.
Proof.
  destruct (decode_argmax_total abc_chars
              [[0; 3; 2; 3; 1]; [5; 5; 0; 1; 2]] 5)
    as (s & Hs & Hall).
  - done.
  - vm_compute. lia.
  - by repeat constructor.
  - exists s. split; [done|]. by rewrite <-(Forall2_length _ _ _ Hall).
Defined.

Lemma row_char_spec (self : CharacterTable.t) (text : str) (num_rows : nat) :
  row_char self text <$> seq 0 num_rows
  = (known_or_oov self <$> take num_rows text)
    ++ replicate (num_rows - length text) Batcher.PAD_CHAR.
Proof.
  apply list_eq. intros i. rewrite list_lookup_fmap. unfold row_char.
  destruct (decide (i < num_rows)%nat) as [Hi|Hi].
  - rewrite lookup_seq_lt by done. simpl.
    destruct (text !! i) as [c|] eqn:Hc.
    + rewrite lookup_app_l
        by (rewrite length_fmap, length_take;
            apply lookup_lt_Some in Hc; lia).
      by rewrite list_lookup_fmap, lookup_take_lt, Hc by done.
    + apply lookup_ge_None in Hc.
      rewrite lookup_app_r by (rewrite length_fmap, length_take; lia).
      rewrite length_fmap, length_take.
      by rewrite lookup_replicate_2 by lia.
  - rewrite lookup_seq_ge by lia. simpl. symmetry.
    apply lookup_ge_None.
    rewrite length_app, length_fmap, length_take, length_replicate. lia.
Qed.

(** X7: with both sentinels in the table, decoding [encode(text, num_rows)]
    gives the first [num_rows] characters of [text], each character unknown
    to the table replaced by the OOV character, followed by pad characters
    up to [num_rows]. *)
Theorem decode_encode_oov (chars text : str) (num_rows : nat) :
  Batcher.OOV_CHAR ∈ chars → Batcher.PAD_CHAR ∈ chars →
  let self := CharacterTable.init chars in
  ∃ x,
    CharacterTable.encode self text num_rows = Ok x
    ∧ CharacterTable.decode self (np.Arr2 x) true
      = Ok ((known_or_oov self <$> take num_rows text)
            ++ replicate (num_rows - length text) Batcher.PAD_CHAR).
Proof.
  intros HOOV HPAD self. exists (encode_rows self text num_rows).
  split; [by apply encode_ok|].
  unfold self. rewrite decode_encode_rows by done.
  by rewrite row_char_spec.
Qed.

Lemma decode_encode_oov_witness :
  ∃ x,
    CharacterTable.encode (CharacterTable.init abc_chars) (pystr "azbc") 3
    = Ok x
    ∧ CharacterTable.decode (CharacterTable.init abc_chars) (np.Arr2 x) true
      = Ok (pystr "a" ++ [Batcher.OOV_CHAR] ++ pystr "b").
Proof.
  destruct (decode_encode_oov abc_chars (pystr "azbc") 3) as (x & Hx & Hd).
  - by_compute.
  - by_compute.
  - exists x. split; [done|]. rewrite Hd. by vm_compute.
Defined.

(** * Further properties of the persisted vocabulary *)

(** X8: [Batcher.write] raises exactly when the list has a duplicate, and
    then it raises AssertionError; nothing is written in that case. *)
Theorem write_raises_iff_duplicate (v : list char) (e : exn) :
  Batcher.write v = Raise e ↔ e = AssertionError ∧ ¬ NoDup v.
Proof.
  rewrite write_spec. case_decide as Hnd.
  - split; [done|]. by intros [_ ?].
  - split; [by intros [= <-]|]. by intros [-> _].
Qed.

(** X9: when [Batcher.write] succeeds, the two persisted dictionaries are
    inverse of each other, the index of a character is its position in the
    list, the list is read back from the values in its order, and the
    vocabulary size is the length of the list. *)
Theorem write_persists (v : list char) (files : Batcher.artifacts) :
  Batcher.write v = Ok files →
  (∀ (i : Z) (c : char),
     PyDict.get (Batcher.get_token_indices files) i = Some c
     ↔ PyDict.get (Batcher.get_indices_token files) c = Some i)
  ∧ (∀ (i : nat) (c : char),
       PyDict.get (Batcher.get_indices_token files) c = Some (Z.of_nat i)
       ↔ v !! i = Some c)
  ∧ PyDict.values (Batcher.get_token_indices files) = v
  ∧ Batcher.get_vocab_size files = length v.
Proof.
  intros (Hnd & Hti & Hit & Hvalues)%write_Ok.
  unfold Batcher.get_vocab_size, Batcher.get_indices_token in *.
  unfold Batcher.get_token_indices in *. rewrite Hti, Hit.
  split_and!; [| |apply enumerate_snd|].
  - intros i c. rewrite get_enumerate, get_enumerate_swap by done.
    case_decide; [tauto|]. split; [done|tauto].
  - intros i c. rewrite get_enumerate_swap, Nat2Z.id by done.
    split; [tauto|]. split; [lia|done].
  - unfold PyDict.len, enumerate. by rewrite length_imap.
Qed.

Lemma write_persists_witness :
  ∃ files,
    Batcher.write (pystr "ba" ++ [Batcher.OOV_CHAR; Batcher.PAD_CHAR])
    = Ok files
    ∧ Batcher.get_vocab_size files = 4%nat.
Proof.
  destruct (Batcher.write (pystr "ba" ++ [Batcher.OOV_CHAR; Batcher.PAD_CHAR]))
    as [e|files] eqn:Hwrite; [by vm_compute in Hwrite|].
  exists files. split; [done|].
  by destruct (write_persists _ _ Hwrite) as (_ & _ & _ & ->).
Defined.

Lemma length_chars_init (v : list char) :
  NoDup v → length (CharacterTable.chars (CharacterTable.init v)) = length v.
Proof.
  intros Hnd. rewrite chars_init, length_sorted. unfold set_of.
  apply Permutation_length, NoDup_Permutation;
    [apply NoDup_remove_dups|done|apply elem_of_remove_dups].
Qed.

(** X10: a [Batcher] made with [load=True] from the files of a successful
    [write] has [chars_len()] equal to [get_vocab_size()] and to the length
    of the list, and every tensor its [encode] returns has the default 12
    rows, or the rows asked for, each as wide as the vocabulary. *)
Theorem loaded_batcher_shape (v : list char) (files : Batcher.artifacts) :
  Batcher.write v = Ok files →
  ∃ self,
    BatcherInstance.init (Some files) true = inr self
    ∧ BatcherInstance.chars_len self = inr (length v)
    ∧ Batcher.get_vocab_size files = length v
    ∧ ∀ elt num_rows x,
        BatcherInstance.encode self elt num_rows = inr x →
        length x = default 12%nat num_rows
        ∧ Forall (λ row, length row = length v) x.
Proof.
  intros Hwrite.
  pose proof (get_chars_and_ctable_write _ _ Hwrite) as Hload.
  pose proof Hwrite as (Hnd & Hti & _ & _)%write_Ok.
  eexists. split; [done|]. unfold BatcherInstance.chars_len.
  unfold BatcherInstance.encode. cbn [BatcherInstance.loaded].
  rewrite Hload. split_and!; [done| |].
  - unfold Batcher.get_vocab_size, Batcher.get_token_indices, PyDict.len.
    rewrite Hti. apply length_imap.
  - intros elt num_rows x. rewrite encode_spec.
    case_decide; [|done]. intros [= <-]. unfold encode_rows.
    rewrite length_fmap, length_seq. split; [done|].
    apply Forall_fmap, Forall_forall. intros i _. simpl.
    unfold one_hot. rewrite length_insert, length_replicate.
    by apply length_chars_init.
Qed.

Lemma loaded_batcher_shape_witness :
  ∃ self,
    BatcherInstance.init
      (Some {| Batcher.token_indices := enumerate abc_chars;
               Batcher.indices_token :=
                 (λ p, (p.2, p.1)) <$> enumerate abc_chars |}) true
    = inr self
    ∧ BatcherInstance.chars_len self = inr 5%nat.
Proof.
  destruct (loaded_batcher_shape abc_chars
    {| Batcher.token_indices := enumerate abc_chars;
       Batcher.indices_token := (λ p, (p.2, p.1)) <$> enumerate abc_chars |})
    as (self & Hinit & Hlen & _).
  - by vm_compute.
  - by exists self.
Defined.

(** * Further properties of the vocabulary builder *)

Lemma length_split (sep : char) (s : str) :
  Z.of_nat (length (split sep s)) = 1 + occurrences sep s.
Proof.
  induction s as [|c s IH]; [done|].
  rewrite occurrences_cons. cbn [split].
  destruct (decide (c = sep)) as [->|Hne].
  - rewrite decide_True by done. cbn [length]. lia.
  - rewrite decide_False by congruence.
    pose proof (occurrences_nonneg sep s).
    destruct (split sep s) as [|field fields]; cbn [length] in *; lia.
Qed.

Lemma three_fields_split (s : str) :
  three_fields s ↔ ∃ id x y, split Batcher.SEP (strip s) = [id; x; y].
Proof.
  unfold three_fields.
  pose proof (length_split Batcher.SEP (strip s)) as Hlen. split.
  - intros Htwo. rewrite Htwo in Hlen.
    destruct (split Batcher.SEP (strip s)) as [|id [|x [|y [|??]]]];
      simpl in Hlen; try lia.
    by exists id, x, y.
  - intros (id & x & y & Hsplit). rewrite Hsplit in Hlen. simpl in Hlen. lia.
Qed.

Lemma count_line_raises (vocabulary : dict char Z) (s : str) (e : exn) :
  count_line vocabulary s = Raise e ↔ e = ValueError ∧ ¬ three_fields s.
Proof.
  rewrite three_fields_split. unfold count_line.
  destruct (split Batcher.SEP (strip s)) as [|id [|x [|y [|??]]]].
  1,2,3,5: split; [intros [= <-]; split; [done|]; by intros (?&?&?&?)
                  |by intros [-> _]].
  split.
  - by destruct (discard_password y || discard_password x).
  - intros [_ Hno]. destruct Hno. by exists id, x, y.
Qed.

Lemma for_each_count_line_raises (vocabulary : dict char Z) (lines : list str)
    (e : exn) :
  for_each count_line vocabulary lines = Raise e
  ↔ e = ValueError ∧ Exists (λ s, ¬ three_fields s) lines.
Proof.
  revert vocabulary. induction lines as [|s lines IH]; intros vocabulary.
  - cbn [for_each]. split; [done|]. by intros [_ ?%Exists_nil].
  - cbn [for_each]. rewrite Exists_cons.
    destruct (count_line vocabulary s) as [e'|vocabulary'] eqn:Hline.
    + rewrite rbind_Raise. apply count_line_raises in Hline as [-> Hs].
      split; [intros [= <-]; by split; [|left]|by intros [-> _]].
    + rewrite rbind_Ok, IH.
      assert (three_fields s) as Hs.
      { destruct (decide (three_fields s)) as [|Hno]; [done|].
        assert (count_line vocabulary s = Raise ValueError) as Hraise
          by by apply count_line_raises.
        congruence. }
      split; [intros [-> ?]; by split; [|right]|].
      by intros [-> [?|?]].
Qed.

(** X11: [build_vocabulary] raises ValueError exactly when some line,
    stripped, does not have exactly two separators; it raises
    AssertionError exactly when every line has three fields and ['？'] is
    one of the selected characters; it raises nothing else. *)
Theorem build_vocabulary_raises (lines : list str) (e : exn) :
  build_vocabulary lines = Raise e
  ↔ (e = ValueError ∧ Exists (λ s, ¬ three_fields s) lines)
    ∨ (e = AssertionError
       ∧ ∃ vocabulary,
           for_each count_line [] lines = Ok vocabulary
           ∧ Batcher.OOV_CHAR ∈ selected_chars vocabulary).
Proof.
  unfold build_vocabulary.
  destruct (build_vocabulary_list lines) as [e'|v] eqn:Hlist.
  - rewrite rbind_Raise.
    assert (for_each count_line [] lines = Raise e') as Hfor.
    { unfold build_vocabulary_list in Hlist.
      destruct (for_each count_line [] lines) as [e0|voc];
        [unfold rbind in Hlist; by injection Hlist as ->
        |discriminate Hlist]. }
    pose proof Hfor as [-> Hex]%for_each_count_line_raises.
    split; [intros [= <-]; by left|].
    intros [[-> _]|(_ & voc & Hvoc & _)]; [done|congruence].
  - rewrite rbind_Ok.
    pose proof Hlist as (voc & Hvoc & _)%build_vocabulary_list_spec.
    pose proof (build_vocabulary_list_NoDup _ _ _ Hvoc Hlist) as [_ Hnd].
    rewrite write_spec. destruct (decide (NoDup v)) as [Hv|Hv]; split.
    + done.
    + intros [[-> Hex]|(-> & voc' & Hvoc' & Hin)].
      * assert (for_each count_line [] lines = Raise ValueError) as Hfor
          by by apply for_each_count_line_raises.
        congruence.
      * assert (voc' = voc) as -> by congruence. by apply Hnd in Hv.
    + intros [= <-]. right. split; [done|]. exists voc. split; [done|].
      destruct (decide (Batcher.OOV_CHAR ∈ selected_chars voc)); [done|].
      destruct Hv. by apply Hnd.
    + intros [[-> Hex]|[-> _]]; [|done].
      assert (for_each count_line [] lines = Raise ValueError) as Hfor
        by by apply for_each_count_line_raises.
      congruence.
Qed.

Lemma counted_chars_password (lines : list str) (c : char) :
  c ∈ counted_chars lines
  ↔ ∃ password, counted_password lines password ∧ c ∈ password.
Proof.
  unfold counted_chars, counted_password. rewrite list_elem_of_bind. split.
  - intros (s & Hc & Hs).
    destruct (split Batcher.SEP (strip s)) as [|id [|x [|y [|??]]]] eqn:Hsplit;
      try by apply elem_of_nil in Hc.
    destruct (discard_password y || discard_password x) eqn:Hd;
      [by apply elem_of_nil in Hc|].
    apply elem_of_app in Hc as [Hc|Hc].
    + exists y. split; [|done]. exists s, id, x, y. by split_and!; [..|right].
    + exists x. split; [|done]. exists s, id, x, y. by split_and!; [..|left].
  - intros (password & (s & id & x & y & Hs & Hsplit & Hd & Hp) & Hc).
    exists s. split; [|done]. rewrite Hsplit, Hd.
    apply elem_of_app. destruct Hp as [->| ->]; [by right|by left].
Qed.

(** X12: every character of the list [build_vocabulary] hands to
    [Batcher.write] is a sentinel or a character of a counted password: a
    password of at most 12 characters, without a space, from a line whose
    other password is not discarded either. *)
Theorem persisted_chars_counted (lines : list str) (v : list char) (c : char) :
  build_vocabulary_list lines = Ok v → c ∈ v →
  c = Batcher.OOV_CHAR ∨ c = Batcher.PAD_CHAR
  ∨ ∃ password,
      counted_password lines password ∧ c ∈ password
      ∧ (length password ≤ 12)%nat ∧ Batcher.PAD_CHAR ∉ password.
Proof.
  intros (voc & Hvoc & ->)%build_vocabulary_list_spec Hc.
  apply elem_of_app in Hc as [Hc|Hc].
  - right. right. apply elem_of_sorted in Hc.
    assert (c ∈ PyDict.keys voc) as Hkey.
    { apply list_elem_of_fmap in Hc as (p & -> & Hp).
      apply most_common_elem_of in Hp. unfold PyDict.keys.
      apply list_elem_of_fmap. by exists p. }
    apply (vocabulary_keys lines voc c Hvoc), counted_chars_password in Hkey
      as (password & Hcounted & Hin).
    exists password. split_and!; [done..| |].
    + destruct Hcounted as (s & id & x & y & _ & _ & Hd & Hp).
      apply orb_false_iff in Hd as [Hy Hx].
      destruct Hp as [-> | ->]; by apply discard_password_false.
    + destruct Hcounted as (s & id & x & y & _ & _ & Hd & Hp).
      apply orb_false_iff in Hd as [Hy Hx].
      assert (Forall (λ c, c ≠ Batcher.PAD_CHAR) password) as Hall
        by (destruct Hp as [-> | ->]; by apply discard_password_false).
      rewrite Forall_forall in Hall. intros Hpad. by apply (Hall _ Hpad).
  - apply elem_of_cons in Hc as [->|Hc]; [by left|].
    apply list_elem_of_singleton in Hc as ->. right. by left.
Qed.

Lemma persisted_chars_counted_witness :
  ord "x" = Batcher.OOV_CHAR ∨ ord "x" = Batcher.PAD_CHAR
  ∨ ∃ password,
      counted_password toy_corpus password ∧ ord "x" ∈ password
      ∧ (length password ≤ 12)%nat ∧ Batcher.PAD_CHAR ∉ password.
Proof.
  apply (persisted_chars_counted toy_corpus
           (pystr "abcxyz" ++ [Batcher.OOV_CHAR; Batcher.PAD_CHAR])).
  - by vm_compute.
  - by_compute.
Defined.

(** X13: the list [build_vocabulary] hands to [Batcher.write] has as many
    entries as there are distinct counted characters, at most 80, plus the
    two sentinels: a corpus with fewer than 80 distinct characters gives a
    smaller vocabulary. *)
Theorem vocabulary_length (lines : list str) (v : list char) :
  build_vocabulary_list lines = Ok v →
  length v
  = (80 `min` length (remove_dups (counted_chars lines)) + 2)%nat.
Proof.
  intros (voc & Hvoc & ->)%build_vocabulary_list_spec.
  rewrite length_app, length_sorted, length_selected_chars.
  rewrite <-(keys_counted_Permutation lines voc Hvoc).
  unfold PyDict.keys. by rewrite length_fmap.
Qed.

Lemma vocabulary_length_witness :
  length (pystr "abcxyz" ++ [Batcher.OOV_CHAR; Batcher.PAD_CHAR])
  = (80 `min` length (remove_dups (counted_chars toy_corpus)) + 2)%nat.
Proof. apply vocabulary_length. by vm_compute. Defined.

(** * The pipeline: vocabulary, table, encoding *)

Lemma build_vocabulary_Ok (lines : list str) (files : Batcher.artifacts) :
  build_vocabulary lines = Ok files →
  ∃ vocabulary v,
    for_each count_line [] lines = Ok vocabulary
    ∧ v = sorted N.ltb (selected_chars vocabulary)
          ++ [Batcher.OOV_CHAR; Batcher.PAD_CHAR]
    ∧ Batcher.write v = Ok files
    ∧ Batcher.get_chars_and_ctable files = (v, CharacterTable.init v).
Proof.
  unfold build_vocabulary. intros Hbuild.
  destruct (build_vocabulary_list lines) as [e|v] eqn:Hlist; [done|].
  rewrite rbind_Ok in Hbuild.
  apply build_vocabulary_list_spec in Hlist as (voc & Hvoc & Hv).
  exists voc, v. split_and!; [done..|]. by apply get_chars_and_ctable_write.
Qed.

(** X14: after a successful [build_vocabulary], a [Batcher] made with
    [load=True] encodes every text without raising: the tensor has the rows
    asked for, 12 by default, each as wide as [get_vocab_size()] and with
    exactly one 1. *)
Theorem pipeline_encode_total (lines : list str) (files : Batcher.artifacts) :
  build_vocabulary lines = Ok files →
  ∃ self,
    BatcherInstance.init (Some files) true = inr self
    ∧ ∀ elt num_rows,
        ∃ x,
          BatcherInstance.encode self elt num_rows = inr x
          ∧ length x = default 12%nat num_rows
          ∧ Forall (λ row, length row = Batcher.get_vocab_size files
                           ∧ count_ones row = 1%nat) x.
Proof.
  intros (voc & v & Hvoc & Hv & Hwrite & Hload)%build_vocabulary_Ok.
  pose proof Hwrite as (Hnd & Hti & _ & _)%write_Ok.
  assert (Batcher.OOV_CHAR ∈ v ∧ Batcher.PAD_CHAR ∈ v) as [HOOV HPAD].
  { rewrite Hv. split; apply elem_of_app; right; [left|right; left]. }
  eexists. split; [done|]. intros elt num_rows.
  unfold BatcherInstance.encode. cbn [BatcherInstance.loaded].
  rewrite Hload, encode_ok by done. eexists. split; [done|].
  unfold encode_rows. rewrite length_fmap, length_seq. split; [done|].
  apply Forall_fmap, Forall_forall. intros i _. cbv beta.
  pose proof (index_of_spec v _ (row_char_in v elt i HOOV HPAD))
    as (_ & _ & Hlt).
  split; [|by apply count_ones_one_hot].
  unfold one_hot. rewrite length_insert, length_replicate.
  rewrite length_chars_init by done.
  unfold Batcher.get_vocab_size, Batcher.get_token_indices, PyDict.len.
  rewrite Hti. symmetry. apply length_imap.
Qed.

Lemma pipeline_encode_total_witness :
  ∃ files self x,
    build_vocabulary toy_corpus = Ok files
    ∧ BatcherInstance.init (Some files) true = inr self
    ∧ BatcherInstance.encode self (pystr "a b?") None = inr x
    ∧ length x = 12%nat.
Proof.
  destruct (build_vocabulary toy_corpus) as [e|files] eqn:Hbuild;
    [by vm_compute in Hbuild|].
  destruct (pipeline_encode_total toy_corpus files Hbuild)
    as (self & Hinit & Henc).
  destruct (Henc (pystr "a b?") None) as (x & Hx & Hlen & _).
  by exists files, self, x.
Defined.

(** X15: when the corpus has at most 80 distinct counted characters, every
    counted password survives the pipeline: a [Batcher] loaded from the
    files [build_vocabulary] wrote encodes it, with the default 12 rows,
    to a tensor that decodes to the password followed by pad characters,
    and trimming the trailing pad characters gives the password back. *)
Theorem pipeline_roundtrip (lines : list str) (files : Batcher.artifacts)
    (password : str) :
  build_vocabulary lines = Ok files →
  (length (remove_dups (counted_chars lines)) ≤ 80)%nat →
  counted_password lines password →
  ∃ self x d,
    BatcherInstance.init (Some files) true = inr self
    ∧ BatcherInstance.encode self password None = inr x
    ∧ BatcherInstance.decode self (np.Arr2 x) true = inr d
    ∧ d = password ++ replicate (12 - length password) Batcher.PAD_CHAR
    ∧ rstrip_pad d = password.
Proof.
  intros (voc & v & Hvoc & Hv & Hwrite & Hload)%build_vocabulary_Ok
    Hdistinct Hcounted.
  assert (Batcher.OOV_CHAR ∈ v ∧ Batcher.PAD_CHAR ∈ v) as [HOOV HPAD].
  { rewrite Hv. split; apply elem_of_app; right; [left|right; left]. }
  assert (Forall (λ c, c ∈ v) password) as Hknown.
  { apply Forall_forall. intros c Hc. rewrite Hv.
    apply elem_of_app. left. apply elem_of_sorted.
    rewrite selected_chars_all.
    - apply (vocabulary_keys lines voc c Hvoc), counted_chars_password.
      by exists password.
    - pose proof (keys_counted_Permutation lines voc Hvoc) as Hperm.
      apply Permutation_length in Hperm. unfold PyDict.keys in Hperm.
      rewrite length_fmap in Hperm.
      unfold Batcher.ENCODING_MAX_SIZE_VOCAB. lia. }
  destruct Hcounted as (s & id & x & y & _ & _ & Hd & Hp).
  apply orb_false_iff in Hd as [Hy Hx].
  assert ((length password ≤ 12)%nat
          ∧ Forall (λ c, c ≠ Batcher.PAD_CHAR) password) as [Hlen Hnopad]
    by (destruct Hp as [-> | ->]; by apply discard_password_false).
  assert (last password ≠ Some Batcher.PAD_CHAR) as Hlast.
  { intros Hl%last_Some_elem_of. rewrite Forall_forall in Hnopad.
    by apply (Hnopad _ Hl). }
  eexists _, (encode_rows (CharacterTable.init v) password 12),
    (password ++ replicate (12 - length password) Batcher.PAD_CHAR).
  split; [done|].
  unfold BatcherInstance.encode, BatcherInstance.decode.
  cbn [BatcherInstance.loaded]. rewrite Hload.
  split_and!; [|  |done|by apply rstrip_pad_padded].
  - change (default Batcher.ENCODING_MAX_PASSWORD_LENGTH None) with 12%nat.
    by rewrite encode_ok.
  - rewrite decode_encode_rows by done.
    by rewrite row_char_known.
Qed.

Lemma pipeline_roundtrip_witness :
  ∃ files self x d,
    build_vocabulary toy_corpus = Ok files
    ∧ BatcherInstance.init (Some files) true = inr self
    ∧ BatcherInstance.encode self (pystr "xy") None = inr x
    ∧ BatcherInstance.decode self (np.Arr2 x) true = inr d
    ∧ rstrip_pad d = pystr "xy".
Proof.
  destruct (build_vocabulary toy_corpus) as [e|files] eqn:Hbuild;
    [by vm_compute in Hbuild|].
  destruct (pipeline_roundtrip toy_corpus files (pystr "xy") Hbuild)
    as (self & x & d & Hinit & Hx & Hd & _ & Htrim).
  - vm_compute. lia.
  - exists (pystr "id" ++ [Batcher.SEP] ++ pystr "ab" ++ [Batcher.SEP]
            ++ pystr "xy"), (pystr "id"), (pystr "ab"), (pystr "xy").
    split_and!; [by_compute|by vm_compute|by vm_compute|by right].
  - by exists files, self, x, d.
Defined.

(** * Further properties of the loader and of [build] *)

(** X16: unlike [next], [statistics] lets the error of the stream through:
    when the pass ends with an exception other than StopIteration,
    [statistics] raises it and leaves the loader with the finished stream;
    a later [next] still restarts the pass and returns its first pair, when
    there is one. *)
Theorem statistics_raises (stream_from_file : str → char → Stream.t)
    (self : LazyDataLoader.t) (e : exn) :
  let fresh :=
    stream_from_file (LazyDataLoader.training_filename self) Batcher.SEP in
  Stream.ending fresh = e → e ≠ StopIteration →
  ∃ self',
    LazyDataLoader.statistics stream_from_file self = (Raise e, self')
    ∧ LazyDataLoader.stream self' = Stream.finished
    ∧ ∀ item rest fuel,
        Stream.pending fresh = item :: rest → (2 ≤ fuel)%nat →
        ∃ self'',
          LazyDataLoader.next stream_from_file fuel self' = Some (item, self'').
Proof.
  intros fresh Hend Hne. eexists. split_and!.
  - unfold LazyDataLoader.statistics, Stream.for_in.
    unfold LazyDataLoader.init_stream. fold fresh.
    rewrite Hend, decide_False by done. reflexivity.
  - done.
  - intros item rest fuel Hpending Hfuel.
    destruct fuel as [|[|fuel]]; [lia..|].
    cbn [LazyDataLoader.next LazyDataLoader.stream Stream.next
         Stream.pending Stream.finished].
    unfold LazyDataLoader.init_stream.
    cbn [LazyDataLoader.training_filename LazyDataLoader.stream].
    unfold Stream.next. fold fresh. rewrite Hpending. by eexists.
Qed.

Lemma statistics_raises_witness :
  ∃ self',
    LazyDataLoader.statistics
      (λ _ sep, Stream.of_lines sep (toy_corpus ++ [pystr "no separator"]))
      (LazyDataLoader.init
         (λ _ sep, Stream.of_lines sep (toy_corpus ++ [pystr "no separator"]))
         [])
    = (Raise ValueError, self').
Proof.
  destruct (statistics_raises
    (λ _ sep, Stream.of_lines sep (toy_corpus ++ [pystr "no separator"]))
    (LazyDataLoader.init
       (λ _ sep, Stream.of_lines sep (toy_corpus ++ [pystr "no separator"]))
       [])
    ValueError) as (self' & Hstat & _).
  - by vm_compute.
  - done.
  - by exists self'.
Defined.

(** X17: on a corpus whose pass yields no pair, a call of [next] on a loader
    with an exhausted stream never returns, whatever the depth of nested
    calls allowed: every restart finds the stream exhausted again. *)
Theorem next_never_returns_on_empty (stream_from_file : str → char → Stream.t)
    (fuel : nat) (self : LazyDataLoader.t) :
  Stream.pending (LazyDataLoader.stream self) = [] →
  Stream.pending
    (stream_from_file (LazyDataLoader.training_filename self) Batcher.SEP)
  = [] →
  LazyDataLoader.next stream_from_file fuel self = None
  ∧ ∀ n, LazyDataLoader.next_n stream_from_file fuel (S n) self = None.
Proof.
  intros Hnow Hfresh.
  assert (LazyDataLoader.next stream_from_file fuel self = None) as Hnext.
  { revert self Hnow Hfresh. induction fuel as [|fuel IH];
      intros self Hnow Hfresh; [done|].
    cbn [LazyDataLoader.next]. unfold Stream.next. rewrite Hnow.
    by apply IH. }
  split; [done|]. intros n. cbn [LazyDataLoader.next_n]. by rewrite Hnext.
Qed.

Lemma next_never_returns_on_empty_witness :
  LazyDataLoader.next (λ _ sep, Stream.of_lines sep []) 1000
    (LazyDataLoader.init (λ _ sep, Stream.of_lines sep []) [])
  = None.
Proof.
  by apply (next_never_returns_on_empty (λ _ sep, Stream.of_lines sep []) 1000
              (LazyDataLoader.init (λ _ sep, Stream.of_lines sep []) [])).
Defined.

Lemma build_loop_next_n (stream_from_file : str → char → Stream.t)
    (fuel count : nat) (data_loader : LazyDataLoader.t)
    (inputs targets : list str) :
  BatcherInstance.build_loop stream_from_file fuel count data_loader
    inputs targets
  = match LazyDataLoader.next_n stream_from_file fuel count data_loader with
    | Some (items, data_loader') =>
        Some (data_loader', inputs ++ items.*1, targets ++ items.*2)
    | None => None
    end.
Proof.
  revert data_loader inputs targets.
  induction count as [|count IH]; intros data_loader inputs targets.
  - cbn [BatcherInstance.build_loop LazyDataLoader.next_n].
    by rewrite !fmap_nil, !app_nil_r.
  - cbn [BatcherInstance.build_loop LazyDataLoader.next_n].
    destruct (LazyDataLoader.next stream_from_file fuel data_loader)
      as [[[x_ y_] data_loader']|]; [|done].
    rewrite IH.
    destruct (LazyDataLoader.next_n stream_from_file fuel count data_loader')
      as [[items data_loader'']|]; [|done].
    rewrite !fmap_cons. cbn [fst snd]. by rewrite <-!app_assoc.
Qed.

Lemma statistics_pass (stream_from_file : str → char → Stream.t)
    (self : LazyDataLoader.t) :
  Stream.ending
    (stream_from_file (LazyDataLoader.training_filename self) Batcher.SEP)
  = StopIteration →
  ∃ max_x max_y,
    LazyDataLoader.statistics stream_from_file self
    = (Ok (max_x, max_y,
           length (Stream.pending
                     (stream_from_file (LazyDataLoader.training_filename self)
                        Batcher.SEP))),
       {| LazyDataLoader.training_filename :=
            LazyDataLoader.training_filename self;
          LazyDataLoader.stream := Stream.finished |}).
Proof.
  intros Hend. unfold LazyDataLoader.statistics, Stream.for_in.
  unfold LazyDataLoader.init_stream.
  rewrite Hend, decide_True, statistics_loop by done. by eexists _, _.
Qed.

(** X18: when the vocabulary is built and the pass over the corpus ends
    normally, [Batcher.build] hands to [np.savez_compressed] exactly the
    pairs of one pass, in order and unfiltered: [inputs] are their [x]
    fields and [targets] their [y] fields.  Two nested calls of [next]
    suffice for every record, and on an empty corpus [next] is not called
    at all. *)
Theorem build_stores_pass (stream_from_file : str → char → Stream.t)
    (fuel : nat) (lines : list str) (filename : str)
    (files : Batcher.artifacts) :
  let fresh := stream_from_file filename Batcher.SEP in
  build_vocabulary lines = Ok files →
  Stream.ending fresh = StopIteration →
  (2 ≤ fuel)%nat ∨ Stream.pending fresh = [] →
  BatcherInstance.build stream_from_file fuel lines filename
  = Some (Some files,
          Ok ((Stream.pending fresh).*1, (Stream.pending fresh).*2)).
Proof.
  intros fresh Hbuild Hend Hfuel. unfold BatcherInstance.build.
  rewrite Hbuild.
  destruct (statistics_pass stream_from_file
              (LazyDataLoader.init stream_from_file filename) Hend)
    as (max_x & max_y & ->).
  cbn [LazyDataLoader.training_filename LazyDataLoader.init]. fold fresh.
  rewrite build_loop_next_n.
  set (pairs := Stream.pending fresh).
  set (loader := {| LazyDataLoader.training_filename := filename;
                    LazyDataLoader.stream := Stream.finished |}).
  destruct (decide (length pairs = 0%nat)) as [Hzero|Hpos].
  - rewrite Hzero. apply nil_length_inv in Hzero. rewrite Hzero. done.
  - destruct Hfuel as [Hfuel|Hnil];
      [|exfalso; apply Hpos; unfold pairs; by rewrite Hnil].
    destruct (next_n_at_position stream_from_file filename fuel
                (length pairs) (length pairs) loader)
      as (outputs & self' & -> & Hlen & Hout); [fold fresh pairs; lia|done| |].
    { split_and!; [done| |done]. fold fresh pairs. by rewrite drop_all. }
    fold fresh pairs in Hout.
    assert (outputs = pairs) as ->; [|done].
    apply list_eq. intros i.
    destruct (decide (i < length pairs)%nat) as [Hi|Hi].
    + rewrite Hout by done. f_equal.
      rewrite <-(Nat.Div0.add_mod_idemp_l (length pairs) i).
      rewrite Nat.Div0.mod_same. simpl. by apply Nat.mod_small.
    + by rewrite !lookup_ge_None_2 by lia.
Qed.

Lemma build_stores_pass_witness :
  ∃ files,
    BatcherInstance.build toy_reader 2 toy_corpus []
    = Some (Some files,
            Ok ([pystr "abc"; pystr "ab"; pystr "a"],
                [pystr "xyz"; pystr "xy"; pystr "x"])).
Proof.
  destruct (build_vocabulary toy_corpus) as [e|files] eqn:Hbuild;
    [by vm_compute in Hbuild|].
  exists files.
  rewrite (build_stores_pass toy_reader 2 toy_corpus [] files Hbuild);
    [done|done|left; lia].
Defined.
